(** * Petesh Social Media: the client-side core, embedded and verified

    The development follows the three source units that carry logic:

    - [src/components/Chat.tsx]       (module [Chat]): conversation identity,
      realtime reconciliation and optimistic send of direct messages;
    - [src/providers/AuthProvider.tsx] (module [AuthProvider]): profile
      back-fill and the generation guard of session hydration;
    - [src/components/Comments.tsx]   (module [Comments]): reply-tree
      construction and the cascading local deletion.

    The embedding comes first, one module per source unit; the properties
    follow, in [AuthProviderSpec], [ChatSpec] and [CommentsSpec], and further
    properties of the same units in [AuthProviderMore], [ChatMore] and
    [CommentsMore].

    Conventions. A JavaScript string is read as the [string] of its UTF-8
    bytes, which is how the literals of this file are stored: equality and
    emptiness are those of the JavaScript string, its [length], counted in
    UTF-16 code units, is [jsLength], and the relational operators are the
    lexicographic ones of [String], which order the identifiers of this
    program (ASCII) as JavaScript does. A nullable value is an [option]. What the environment
    supplies (a builtin such as [Date] or [trim], a fresh UUID, the answer of
    the backing store) is an argument of the function that uses it. An
    [async] function is cut at its [await]s: one function per stretch that
    runs without interruption. *)

From stdpp Require Import base option list sorting gmap strings.
From Stdlib Require Import ZArith Lia.

Set Warnings "-clear-no-such-hyp,-register-all".

(** ** Shared JavaScript idioms *)

(** [!!s] for a nullable string: [null], [undefined] and [""] are falsy. *)
Definition truthy (s : option string) : bool :=
  match s with
  | Some EmptyString | None => false
  | Some _ => true
  end.

Global Arguments truthy : simpl never.

(** [a || b] on nullable strings. *)
Definition js_or (a b : option string) : option string :=
  if truthy a then a else b.

(** [s.length]: the number of UTF-16 code units of the string whose UTF-8
    bytes are [s]. The byte that starts a sequence of one, two or three
    bytes stands for one code unit, the byte that starts a sequence of four
    for the two of a surrogate pair, a continuation byte for none. *)
Definition codeUnits (c : Ascii.ascii) : nat :=
  let n := Ascii.nat_of_ascii c in
  if n <? 128 then 1
  else if n <? 192 then 0
  else if n <? 240 then 1
  else 2.

Fixpoint jsLength (s : string) : nat :=
  match s with
  | EmptyString => 0
  | String c s' => codeUnits c + jsLength s'
  end.

(** * Chat.tsx *)

Module Chat.

Record Profile := mkProfile {
  p_id : string;
  p_display_name : option string;
  p_avatar_url : option string;
}.

Record Message := mkMessage {
  id : string;
  sender_id : string;
  receiver_id : string;
  body : string;
  created_at : string;
}.

Definition samePair (m : Message) (me other : string) : bool :=
  (String.eqb (sender_id m) me && String.eqb (receiver_id m) other)
  || (String.eqb (sender_id m) other && String.eqb (receiver_id m) me).

(** [me < other ? `dm:${me}:${other}` : `dm:${other}:${me}`] *)
Definition dmChannel (me other : string) : string :=
  if String.ltb me other
  then "dm:" +:+ me +:+ ":" +:+ other
  else "dm:" +:+ other +:+ ":" +:+ me.

(** The view state that the message store touches. *)
Record State := mkState {
  messages : list Message;
  text : string;
  error : string;
}.

(** [setMessages(updater)] *)
Definition setMessages (f : list Message → list Message) (st : State) : State :=
  {| messages := f (messages st); text := text st; error := error st |}.

Definition setText (t : string) (st : State) : State :=
  {| messages := messages st; text := t; error := error st |}.

Definition setError (e : string) (st : State) : State :=
  {| messages := messages st; text := text st; error := e |}.

(** The updater run by the realtime handler:
    [prev.some((x) => x.id === m.id) ? prev : [...prev, m]]. *)
Definition appendUnlessPresent (m : Message) (prev : list Message) : list Message :=
  if existsb (λ x, String.eqb (id x) (id m)) prev then prev else prev ++ [m].

(** The [postgres_changes] INSERT handler of the subscription opened for the
    pair [(me, selected.id)]; [m] is [payload.new]. *)
Definition onInsert (me other : string) (m : Message) (st : State) : State :=
  if negb (samePair m me other) then st
  else setMessages (appendUnlessPresent m) st.

Section Send.

(** [String.prototype.trim], a builtin the component relies on. *)
Variable trim : string → string.

(** [send] suspends once, at the backend insert. *)
Inductive SendStep :=
| Returned (st : State)
| AwaitInsert (st : State) (sent : Message).

(** [send] up to its [await]. [uuid] is the value of [crypto.randomUUID()],
    [now] that of [new Date().toISOString()]. *)
Definition send (me : option string) (selected : option Profile)
    (uuid now : string) (st : State) : SendStep :=
  match me, selected with
  | Some me_id, Some sel =>
    if negb (truthy (Some me_id)) || negb (truthy (Some (p_id sel)))
    then Returned st
    else
      let body := trim (text st) in
      if negb (truthy (Some body)) then Returned st
      else
        let st := setError "" st in
        let st := setText "" st in
        let optimistic :=
          {| id := uuid; sender_id := me_id; receiver_id := p_id sel;
             body := body; created_at := now |} in
        let st := setMessages (λ prev, prev ++ [optimistic]) st in
        AwaitInsert st optimistic
  | _, _ => Returned st
  end.

(** [send] after the [await]: [err] is the [error.message] of the insert,
    [None] when the insert succeeded. *)
Definition send_resume (sent : Message) (err : option string) (st : State) : State :=
  match err with
  | Some msg =>
    let st := setError msg st in
    setMessages (filter (λ m, id m ≠ id sent)) st
  | None => st
  end.

End Send.

(** ** The list of peers and the unread badges *)

Record Roster := mkRoster {
  profiles : list Profile;
  selected : option Profile;
}.

(** The updater passed to [setSelected] in [loadProfiles]:
    [prev && others.some((o) => o.id === prev.id) ? prev
     : others.length ? others[0] : null]. *)
Definition keepSelected (others : list Profile) (prev : option Profile)
    : option Profile :=
  match prev with
  | Some p =>
    if existsb (λ o, String.eqb (p_id o) (p_id p)) others then Some p
    else head others
  | None => head others
  end.

(** [loadProfiles] after its [await], [me] being set: [data] and [err] are
    the answer of the query ([err] its [error.message]). *)
Definition loadProfiles_resume (me : string) (data : option (list Profile))
    (err : option string) (r : Roster) (st : State) : Roster * State :=
  match err with
  | Some msg => ({| profiles := []; selected := None |}, setError msg st)
  | None =>
    let list := default [] data in
    let others := filter (λ p, p_id p ≠ me) list in
    ({| profiles := others; selected := keepSelected others (selected r) |}, st)
  end.

(** [loadMessages] after its [await]. *)
Definition loadMessages_resume (data : option (list Message)) (err : option string)
    (st : State) : State :=
  match err with
  | Some msg => setError msg st
  | None => setMessages (λ _, default [] data) st
  end.

(** The body of the loop of [unreadByUser]. *)
Definition countUnread (me : string) (map : gmap string nat) (m : Message)
    : gmap string nat :=
  if negb (String.eqb (receiver_id m) me) then map
  else
    let other := sender_id m in
    <[other := default 0 (map !! other) + 1]> map.

(** The memo [unreadByUser]. *)
Definition unreadByUser (me : option string) (messages : list Message)
    : gmap string nat :=
  match me with
  | Some me_id =>
    if negb (truthy (Some me_id)) then ∅
    else foldl (countUnread me_id) ∅ messages
  | None => ∅
  end.

End Chat.

(** * AuthProvider.tsx *)

Module AuthProvider.

Record Profile := mkProfile {
  id : string;
  display_name : option string;
  avatar_url : option string;
}.

(** The provider metadata the code reads ([user.user_metadata], an [any]). *)
Record Metadata := mkMetadata {
  meta_full_name : option string;
  meta_name : option string;
  meta_avatar_url : option string;
  meta_picture : option string;
}.

Record User := mkUser {
  user_id : string;
  email : option string;
  user_metadata : option Metadata;
}.

Record Session := mkSession { session_user : option User }.

(** [email.split("@")[0]] *)
Fixpoint beforeAt (s : string) : string :=
  match s with
  | EmptyString => EmptyString
  | String c s' =>
    if Ascii.eqb c (Ascii.Ascii false false false false false false true false)
    then EmptyString else String c (beforeAt s')
  end.

Record Defaults := mkDefaults {
  d_display_name : option string;
  d_avatar_url : option string;
}.

Definition buildProfileDefaults (user : User) : Defaults :=
  let meta :=
    default {| meta_full_name := None; meta_name := None;
               meta_avatar_url := None; meta_picture := None |}
            (user_metadata user) in
  let display_name :=
    js_or (js_or (js_or (meta_full_name meta) (meta_name meta))
                 (beforeAt <$> email user))
          (Some "Usuario") in
  let avatar_url := js_or (js_or (meta_avatar_url meta) (meta_picture meta)) None in
  {| d_display_name := display_name; d_avatar_url := avatar_url |}.

(** ** The backing store, as [ensureProfile] uses it

    The [profiles] table is a list of rows. Every call to the store may also
    fail for reasons of its own (network, row-level security): [faults] is the
    script of those failures, one entry per call still to come, [Some msg]
    for a call that fails with [msg]. *)

Record Backend := mkBackend {
  profiles : list Profile;
  faults : list (option string);
}.

Inductive Outcome (A : Type) :=
| Ok (a : A)
| Throw (msg : string).
Arguments Ok {A} a.
Arguments Throw {A} msg.

Definition M (A : Type) : Type := Backend → Outcome A * Backend.

Definition ret {A} (a : A) : M A := λ b, (Ok a, b).
Definition throw {A} (msg : string) : M A := λ b, (Throw msg, b).
Definition bind {A B} (m : M A) (k : A → M B) : M B :=
  λ b, match m b with
       | (Ok a, b') => k a b'
       | (Throw msg, b') => (Throw msg, b')
       end.

Notation "'await' x ← m ; k" := (bind m (λ x, k))
  (at level 100, x name, m at next level, k at level 200, right associativity).

(** One round trip: the next entry of the fault script decides whether the
    call reaches the table. *)
Definition call {A} (onFault : string → A) (run : list Profile → A * list Profile) : M A :=
  λ b,
    match faults b with
    | Some msg :: rest => (Ok (onFault msg), {| profiles := profiles b; faults := rest |})
    | None :: rest =>
      let '(a, rows) := run (profiles b) in
      (Ok a, {| profiles := rows; faults := rest |})
    | [] =>
      let '(a, rows) := run (profiles b) in
      (Ok a, {| profiles := rows; faults := [] |})
    end.

(** [.select(...).eq("id", userId).single()], an error turned into [null]:
    [single] fails unless exactly one row matches. *)
Definition selectProfile (userId : string) : M (option Profile) :=
  call (λ _, None)
       (λ rows,
          (match filter (λ r, id r = userId) rows with
           | [r] => Some r
           | _ => None
           end, rows)).

(** [.insert(row)]; [id] is the primary key of the table. *)
Definition insertProfile (row : Profile) : M (option string) :=
  call Some
       (λ rows,
          if decide (id row ∈ id <$> rows)
          then (Some "duplicate key value violates unique constraint", rows)
          else (None, rows ++ [row])).

(** [Partial<Profile>]: [None] for a key the patch does not carry. *)
Record Patch := mkPatch {
  patch_display_name : option string;
  patch_avatar_url : option string;
}.

Definition applyPatch (patch : Patch) (r : Profile) : Profile :=
  {| id := id r;
     display_name :=
       match patch_display_name patch with Some v => Some v | None => display_name r end;
     avatar_url :=
       match patch_avatar_url patch with Some v => Some v | None => avatar_url r end |}.

Definition updateRows (patch : Patch) (userId : string) (rows : list Profile) : list Profile :=
  (λ r, if decide (id r = userId) then applyPatch patch r else r) <$> rows.

(** [.update(patch).eq("id", userId)] *)
Definition updateProfile (patch : Patch) (userId : string) : M (option string) :=
  call Some (λ rows, (None, updateRows patch userId rows)).

Definition missingOnly (existing : Profile) (defaults : Defaults) : Patch :=
  {| patch_display_name :=
       if negb (truthy (display_name existing)) && truthy (d_display_name defaults)
       then d_display_name defaults else None;
     patch_avatar_url :=
       if negb (truthy (avatar_url existing)) && truthy (d_avatar_url defaults)
       then d_avatar_url defaults else None |}.

(** [Object.keys(patch).length > 0] *)
Definition nonEmpty (patch : Patch) : bool :=
  bool_decide (is_Some (patch_display_name patch))
  || bool_decide (is_Some (patch_avatar_url patch)).

Definition ensureProfile (user : User) : M Profile :=
  let defaults := buildProfileDefaults user in
  await existing ← selectProfile (user_id user);
  match existing with
  | None =>
    await insertError ← insertProfile
      {| id := user_id user;
         display_name := d_display_name defaults;
         avatar_url := d_avatar_url defaults |};
    match insertError with
    | Some e =>
      await afterRace ← selectProfile (user_id user);
      match afterRace with
      | None => throw e
      | Some p => ret p
      end
    | None =>
      await created ← selectProfile (user_id user);
      match created with
      | None => throw "Unable to read profile after insert (check RLS SELECT on profiles)."
      | Some p => ret p
      end
    end
  | Some existing =>
    let patch := missingOnly existing defaults in
    if nonEmpty patch then
      await patchError ← updateProfile patch (user_id user);
      match patchError with
      | Some e => throw e
      | None =>
        await updated ← selectProfile (user_id user);
        match updated with
        | Some p => ret p
        | None => ret existing
        end
      end
    else ret existing
  end.

(** ** Provider state and the generation guard *)

Record State := mkState {
  session : option Session;
  user : option User;
  profile : option Profile;
  authLoading : bool;
  profileLoading : bool;
  errMsg : option string;
  runIdRef : nat;       (* [runIdRef.current]; it grows without bound here *)
  mountedRef : bool;    (* [mountedRef.current] *)
}.

Definition setSession (v : option Session) (st : State) : State :=
  mkState v (user st) (profile st) (authLoading st) (profileLoading st)
          (errMsg st) (runIdRef st) (mountedRef st).
Definition setUser (v : option User) (st : State) : State :=
  mkState (session st) v (profile st) (authLoading st) (profileLoading st)
          (errMsg st) (runIdRef st) (mountedRef st).
Definition setProfile (f : option Profile → option Profile) (st : State) : State :=
  mkState (session st) (user st) (f (profile st)) (authLoading st)
          (profileLoading st) (errMsg st) (runIdRef st) (mountedRef st).
Definition setAuthLoading (v : bool) (st : State) : State :=
  mkState (session st) (user st) (profile st) v (profileLoading st)
          (errMsg st) (runIdRef st) (mountedRef st).
Definition setProfileLoading (v : bool) (st : State) : State :=
  mkState (session st) (user st) (profile st) (authLoading st) v
          (errMsg st) (runIdRef st) (mountedRef st).
Definition setErrMsg (v : option string) (st : State) : State :=
  mkState (session st) (user st) (profile st) (authLoading st)
          (profileLoading st) v (runIdRef st) (mountedRef st).
Definition setRunId (v : nat) (st : State) : State :=
  mkState (session st) (user st) (profile st) (authLoading st)
          (profileLoading st) (errMsg st) v (mountedRef st).
Definition setMounted (v : bool) (st : State) : State :=
  mkState (session st) (user st) (profile st) (authLoading st)
          (profileLoading st) (errMsg st) (runIdRef st) v.

Definition commitIfLatest (runId : nat) (fn : State → State) (st : State) : State :=
  if negb (mountedRef st) then st
  else if negb (runId =? runIdRef st) then st
  else fn st.

(** The synchronous part of [hydrateFromSession]: the state it leaves and,
    when the session has a user, the background job it starts, which is
    [ensureProfile] for that user under the captured [runId]. *)
Definition hydrateFromSession (s : option Session) (st : State)
    : State * option (nat * User) :=
  let runId := S (runIdRef st) in
  let st := setRunId runId st in
  let st := commitIfLatest runId (λ st, setErrMsg None (setAuthLoading true st)) st in
  let st := commitIfLatest runId
              (λ st, setUser (s ≫= session_user) (setSession s st)) st in
  let st := commitIfLatest runId (setAuthLoading false) st in
  match s ≫= session_user with
  | Some u =>
    let defaults := buildProfileDefaults u in
    let st := commitIfLatest runId
      (λ st,
         setProfileLoading true
           (setProfile
              (λ prev,
                 match prev with
                 | Some p => Some p
                 | None =>
                   Some {| id := user_id u;
                           display_name := d_display_name defaults;
                           avatar_url := d_avatar_url defaults |}
                 end) st)) st in
    (st, Some (runId, u))
  | None =>
    (commitIfLatest runId
       (λ st, setProfileLoading false (setProfile (λ _, None) st)) st, None)
  end.

(** The callbacks chained on the background job of attempt [runId]. *)
Definition onProfileResolved (runId : nat) (p : Profile) : State → State :=
  commitIfLatest runId (setProfile (λ _, Some p)).

(** [e?.message ?? "Profile sync error"] *)
Definition onProfileRejected (runId : nat) (message : option string) : State → State :=
  commitIfLatest runId (setErrMsg (Some (default "Profile sync error" message))).

Definition onProfileSettled (runId : nat) : State → State :=
  commitIfLatest runId (setProfileLoading false).

(** The [catch] block of [hydrateFromSession]. *)
Definition onHydrateFailed (runId : nat) (message : option string) : State → State :=
  commitIfLatest runId
    (λ st,
       setAuthLoading false
         (setErrMsg (Some (default "Auth error" message))
            (setProfileLoading false
               (setProfile (λ _, None) (setUser None (setSession None st)))))).

(** Everything that can happen to the provider between two renders. *)
Inductive Event :=
| Hydrate (s : option Session)                      (* an identity change *)
| ProfileResolved (runId : nat) (p : Profile)
| ProfileRejected (runId : nat) (message : option string)
| ProfileSettled (runId : nat)
| HydrateFailed (runId : nat) (message : option string)
| Mounted
| Unmounted
| InitFailed (message : string)                     (* [getSession] failed *)
| SignedOut                                         (* cleanup of [signOut] *)
| ProfileRefreshed (p : option Profile)             (* [refreshProfile] *)
| DisplayNameUpdated (clean : string).              (* [updateDisplayName] *)

Definition step (ev : Event) (st : State) : State :=
  match ev with
  | Hydrate s => fst (hydrateFromSession s st)
  | ProfileResolved runId p => onProfileResolved runId p st
  | ProfileRejected runId e => onProfileRejected runId e st
  | ProfileSettled runId => onProfileSettled runId st
  | HydrateFailed runId e => onHydrateFailed runId e st
  | Mounted => setMounted true st
  | Unmounted => setMounted false st
  | InitFailed msg => setAuthLoading false (setErrMsg (Some msg) st)
  | SignedOut =>
    setErrMsg None (setProfile (λ _, None) (setUser None (setSession None st)))
  | ProfileRefreshed p => setProfile (λ _, p) st
  | DisplayNameUpdated clean =>
    setProfile
      (λ prev,
         match prev with
         | Some p => Some {| id := id p; display_name := Some clean;
                             avatar_url := avatar_url p |}
         | None => None
         end) st
  end.

Definition run (evs : list Event) (st : State) : State :=
  foldl (λ st ev, step ev st) st evs.

(** The attempt on whose behalf an event commits. *)
Definition attempt (ev : Event) : option nat :=
  match ev with
  | ProfileResolved r _ | ProfileRejected r _ | ProfileSettled r
  | HydrateFailed r _ => Some r
  | _ => None
  end.

(** ** Changing the alias *)

Section UpdateDisplayName.

(** [String.prototype.trim]. *)
Variable trim : string → string.

(** [updateDisplayName] up to its last statement: the checks and the write.
    It gives [clean], the alias written; the local [setProfile] that follows
    is the event [DisplayNameUpdated clean]. [user] is the signed-in user of
    the render the callback was made in. *)
Definition updateDisplayName (user : option User) (displayName : string) : M string :=
  match user with
  | None => throw "Not authenticated"
  | Some u =>
    let clean := trim displayName in
    if jsLength clean <? 3 then throw "Alias too short"
    else
      await error ← updateProfile
        {| patch_display_name := Some clean; patch_avatar_url := None |} (user_id u);
      match error with
      | Some e => throw e
      | None => ret clean
      end
  end.

End UpdateDisplayName.

End AuthProvider.

(** * Comments.tsx *)

Module Comments.

Record Row := mkRow {
  id : string;
  photo_id : string;
  parent_id : option string;
  user_id : string;
  display_name : option string;
  body : string;
  created_at : string;
}.

(** [Node = Row & { replies: Node[] }], the value a caller of [buildTree]
    walks. *)
Inductive Node := mkNode {
  row : Row;
  replies : list Node;
}.

(** While [buildTree] runs, the nodes are objects that are shared between
    [byId], [roots] and the [replies] arrays and are updated in place. A node
    object is identified by the key under which [byId] holds it, and an array
    of nodes is a list of such references. *)
Record Cell := mkCell {
  cell_row : Row;
  cell_replies : list string;
}.

Record Heap := mkHeap {
  cells : gmap string Cell;   (* the node objects of [byId] *)
  roots : list string;        (* the array [roots] *)
}.

(** [new Map(entries)]: the values, and the keys in insertion order. A later
    entry for a key that is present replaces the value and keeps the place. *)
Definition mapSet (k : string) (c : Cell)
    (m : list string * gmap string Cell) : list string * gmap string Cell :=
  (match m.2 !! k with Some _ => m.1 | None => m.1 ++ [k] end, <[k := c]> m.2).

Definition newMap (rows : list Row) : list string * gmap string Cell :=
  foldl (λ m r, mapSet (id r) {| cell_row := r; cell_replies := [] |} m)
        ([], ∅) rows.

(** [n.parent_id && byId.has(n.parent_id)], giving the parent to link to. *)
Definition parentRef (byId : gmap string Cell) (n : Cell) : option string :=
  match parent_id (cell_row n) with
  | Some p =>
    if truthy (Some p) && bool_decide (is_Some (byId !! p)) then Some p else None
  | None => None
  end.

Definition push (k : string) (c : Cell) : Cell :=
  {| cell_row := cell_row c; cell_replies := cell_replies c ++ [k] |}.

(** The body of [for (const n of byId.values())], [k] being the key of [n]. *)
Definition link (h : Heap) (k : string) : Heap :=
  match cells h !! k with
  | Some n =>
    match parentRef (cells h) n with
    | Some p => {| cells := alter (push k) p (cells h); roots := roots h |}
    | None => {| cells := cells h; roots := roots h ++ [k] |}
    end
  | None => h
  end.

(** [Array.prototype.sort(cmp)]: a stable sort (ECMAScript 2019), here by
    insertion. [cmp a b <= 0] keeps [a] before [b]. *)
Fixpoint insertBy {A} (cmp : A → A → Z) (x : A) (l : list A) : list A :=
  match l with
  | [] => [x]
  | y :: l' => if (cmp x y <=? 0)%Z then x :: l else y :: insertBy cmp x l'
  end.

Definition arraySort {A} (cmp : A → A → Z) (l : list A) : list A :=
  foldr (insertBy cmp) [] l.

(** The arrays [sortRec] is called on. *)
Inductive ArrRef :=
| Roots
| RepliesOf (k : string).

Definition readArr (h : Heap) (a : ArrRef) : list string :=
  match a with
  | Roots => roots h
  | RepliesOf k => default [] (cell_replies <$> cells h !! k)
  end.

Definition writeArr (h : Heap) (a : ArrRef) (l : list string) : Heap :=
  match a with
  | Roots => {| cells := cells h; roots := l |}
  | RepliesOf k =>
    {| cells := alter (λ c, {| cell_row := cell_row c; cell_replies := l |}) k (cells h);
       roots := roots h |}
  end.

(** [arr.forEach(f)] for an [f] that updates the heap and may not return. *)
Fixpoint forEach (f : Heap → string → option Heap) (arr : list string) (h : Heap)
    : option Heap :=
  match arr with
  | [] => Some h
  | x :: arr' => h' ← f h x; forEach f arr' h'
  end.

Section BuildTree.

(** [new Date(s).getTime()] for a timestamp [s] of the backing store, all of
    which parse (no [NaN]). *)
Variable getTime : string → Z.

(** [new Date(x.created_at).getTime()] for the node behind a reference. *)
Definition timeOf (h : Heap) (x : string) : Z :=
  match cells h !! x with
  | Some c => getTime (created_at (cell_row c))
  | None => 0
  end.

(** [sortRec(arr)]: sorts the array in place, then descends into the
    [replies] of each element, in the sorted order. [fuel] bounds the depth
    of the descent; a descent that comes back to an array it is walking
    does not end, in JavaScript as here. *)
Fixpoint sortRec (fuel : nat) (h : Heap) (a : ArrRef) : option Heap :=
  match fuel with
  | 0 => None
  | S fuel' =>
    let h1 := writeArr h a (arraySort (λ x y, timeOf h x - timeOf h y)%Z (readArr h a)) in
    forEach (λ h x, sortRec fuel' h (RepliesOf x)) (readArr h1 a) h1
  end.

(** What the caller reads through an array of node objects. *)
Fixpoint readNodes (fuel : nat) (h : Heap) (arr : list string) : option (list Node) :=
  match fuel with
  | 0 => None
  | S fuel' =>
    mapM (λ x, c ← cells h !! x;
               kids ← readNodes fuel' h (cell_replies c);
               Some {| row := cell_row c; replies := kids |}) arr
  end.

(** [buildTree(rows)]: a forest is at most as deep as it has nodes, which
    gives the fuel. *)
Definition buildTree (rows : list Row) : option (list Node) :=
  let byId := newMap rows in
  let h := foldl link {| cells := byId.2; roots := [] |} byId.1 in
  h' ← sortRec (S (length rows)) h Roots;
  readNodes (S (length rows)) h' (roots h').

End BuildTree.

(** ** [deleteComment] *)

Record State := mkState {
  rows : list Row;
  text : string;
  replyTo : option string;
  error : string;
  busyId : option string;
}.

Definition setRows (f : list Row → list Row) (st : State) : State :=
  mkState (f (rows st)) (text st) (replyTo st) (error st) (busyId st).
Definition setReplyTo (v : option string) (st : State) : State :=
  mkState (rows st) (text st) v (error st) (busyId st).
Definition setError (v : string) (st : State) : State :=
  mkState (rows st) (text st) (replyTo st) v (busyId st).
Definition setBusyId (v : option string) (st : State) : State :=
  mkState (rows st) (text st) (replyTo st) (error st) v.

(** The loop that fills [childrenByParent]. *)
Definition addChild (m : gmap string (list string)) (r : Row) : gmap string (list string) :=
  if truthy (parent_id r) then
    match parent_id r with
    | Some p => <[p := default [] (m !! p) ++ [id r]]> m
    | None => m
    end
  else m.

Definition childrenByParent (prev : list Row) : gmap string (list string) :=
  foldl addChild ∅ prev.

(** The [while (stack.length)] loop. The head of [stack] is the end of the
    JavaScript array, where [pop] and [push] work. *)
Fixpoint collect (fuel : nat) (children : gmap string (list string))
    (stack : list string) (toRemove : gset string) : option (gset string) :=
  match stack with
  | [] => Some toRemove
  | cur :: stack' =>
    match fuel with
    | 0 => None
    | S fuel' =>
      if decide (cur ∈ toRemove) then collect fuel' children stack' toRemove
      else
        let kids := default [] (children !! cur) in
        collect fuel' children (foldl (λ s k, k :: s) stack' kids) ({[cur]} ∪ toRemove)
    end
  end.

(** The updater passed to [setRows]. The loop runs at most once per element
    ever pushed: the target and one push per row. *)
Definition prune (target : string) (prev : list Row) : option (list Row) :=
  let byId : gmap string Row := foldl (λ m r, <[id r := r]> m) ∅ prev in
  toRemove ← collect (S (length prev)) (childrenByParent prev) [target] ∅;
  if bool_decide (is_Some (byId !! target))
  then Some (filter (λ r, id r ∉ toRemove) prev)
  else Some prev.

(** [deleteComment(id)] suspends once, at the remote delete. *)
Inductive DeleteStep :=
| Returned (st : State)
| AwaitDelete (st : State) (replyTo0 : option string).

(** [deleteComment] up to its [await], with what its environment answers:
    whether a user is signed in, and the answer to [window.confirm]. The
    handler reads [replyTo] from the render it was made in: [replyTo0] is
    that value, kept for the comparison that follows the [await]. *)
Definition deleteComment_start (signedIn confirmed : bool)
    (target : string) (st : State) : DeleteStep :=
  let replyTo0 := replyTo st in
  let st := setError "" st in
  if negb signedIn
  then Returned (setError "Inicia sesión para administrar tus comentarios." st)
  else if negb confirmed then Returned st
  else AwaitDelete (setBusyId (Some target) st) replyTo0.

(** [deleteComment] after the [await], on the state of that moment:
    [remoteError] is the [error.message] of the remote delete ([None] when it
    succeeded), [replyTo0] the reply target the handler started with. *)
Definition deleteComment_resume (remoteError : option string) (target : string)
    (replyTo0 : option string) (st : State) : option State :=
  match remoteError with
  | Some msg => Some (setBusyId None (setError msg st))
  | None =>
    rows' ← prune target (rows st);
    let st := setRows (λ _, rows') st in
    let st := if decide (replyTo0 = Some target) then setReplyTo None st else st in
    Some (setBusyId None st)
  end.

(** The run of [deleteComment(id)] during whose [await] nothing else
    happens to the component. *)
Definition deleteComment (signedIn confirmed : bool) (remoteError : option string)
    (target : string) (st : State) : option State :=
  match deleteComment_start signedIn confirmed target st with
  | Returned st' => Some st'
  | AwaitDelete st1 replyTo0 => deleteComment_resume remoteError target replyTo0 st1
  end.

End Comments.

(** * Properties of AuthProvider.tsx *)

Module AuthProviderSpec.
Import AuthProvider.

(** ** Example data *)

Definition ana : User :=
  {| user_id := "u-ana"; email := Some "ana@example.org";
     user_metadata :=
       Some {| meta_full_name := Some "Ana Maria Lopez"; meta_name := None;
               meta_avatar_url := None;
               meta_picture := Some "https://idp.example/ana.png" |} |}.

Definition anaStored : Profile :=
  {| id := "u-ana"; display_name := Some "anita"; avatar_url := None |}.

Definition store : Backend :=
  {| profiles := [anaStored]; faults := [] |}.

Definition signedOut : State :=
  {| session := None; user := None; profile := None; authLoading := true;
     profileLoading := false; errMsg := None; runIdRef := 0; mountedRef := true |}.

Definition anaSession : option Session := Some {| session_user := Some ana |}.

(** ** Profile back-fill *)

Lemma call_profiles {A} (onFault : string → A) run b a b' :
  call onFault run b = (Ok a, b') →
  (∀ rows, snd (run rows) = rows) →
  profiles b' = profiles b.
Proof.
  unfold call. intros Hcall Hrun.
  destruct (faults b) as [|[msg|] rest]; try destruct (run (profiles b)) eqn:E;
    inversion Hcall; subst; simpl; try done;
    by rewrite <- (Hrun (profiles b)), E.
Qed.

Lemma selectProfile_inv userId b r b' :
  selectProfile userId b = (Ok (Some r), b') →
  filter (λ x, id x = userId) (profiles b) = [r] ∧ profiles b' = profiles b.
Proof.
  intros H. split; [|by eapply call_profiles].
  unfold selectProfile, call in H.
  destruct (faults b) as [|[msg|] rest]; try discriminate;
    destruct (filter _ (profiles b)) as [|x [|y l]]; by inversion H.
Qed.

Lemma selectProfile_rows userId b o b' :
  selectProfile userId b = (o, b') → profiles b' = profiles b.
Proof.
  unfold selectProfile, call.
  destruct (faults b) as [|[msg|] rest]; by intros [= <- <-].
Qed.

Lemma applyPatch_id patch r : id (applyPatch patch r) = id r.
Proof. done. Qed.

Lemma updateRows_nothing userId rows :
  updateRows {| patch_display_name := None; patch_avatar_url := None |} userId rows = rows.
Proof.
  unfold updateRows. induction rows as [|r rows IH]; [done|].
  rewrite fmap_cons, IH. f_equal. destruct r. by case_decide.
Qed.

Lemma filter_updateRows patch userId rows :
  filter (λ x, id x = userId) (updateRows patch userId rows)
  = applyPatch patch <$> filter (λ x, id x = userId) rows.
Proof.
  unfold updateRows. induction rows as [|r rows IH]; [done|].
  rewrite fmap_cons. destruct (decide (id r = userId)) as [Heq|Hne].
  - rewrite !filter_cons_True by done. rewrite fmap_cons. by rewrite IH.
  - rewrite !filter_cons_False by done. done.
Qed.

Lemma missingOnly_keeps existing defaults :
  (truthy (display_name existing) = true →
     patch_display_name (missingOnly existing defaults) = None) ∧
  (truthy (avatar_url existing) = true →
     patch_avatar_url (missingOnly existing defaults) = None).
Proof. unfold missingOnly; simpl. split; by intros ->. Qed.

Lemma applyPatch_keeps patch existing :
  (patch_display_name patch = None →
     display_name (applyPatch patch existing) = display_name existing) ∧
  (patch_avatar_url patch = None →
     avatar_url (applyPatch patch existing) = avatar_url existing).
Proof. unfold applyPatch; simpl. split; by intros ->. Qed.

(** The run of [ensureProfile] once its first read has found the record. *)
Lemma ensureProfile_after_select
    (u : User) (b b1 : Backend) (existing : Profile) :
  selectProfile (user_id u) b = (Ok (Some existing), b1) →
  ∃ patch,
    (truthy (display_name existing) = true → patch_display_name patch = None) ∧
    (truthy (avatar_url existing) = true → patch_avatar_url patch = None) ∧
    profiles (snd (ensureProfile u b)) = updateRows patch (user_id u) (profiles b) ∧
    ∀ p, fst (ensureProfile u b) = Ok p →
      id p = id existing ∧
      (truthy (display_name existing) = true → display_name p = display_name existing) ∧
      (truthy (avatar_url existing) = true → avatar_url p = avatar_url existing).
Proof.
  intros Hsel. unfold ensureProfile, bind. rewrite Hsel.
  apply selectProfile_inv in Hsel as [Hone Hrows].
  set (patch := missingOnly existing (buildProfileDefaults u)).
  destruct (missingOnly_keeps existing (buildProfileDefaults u)) as [Hdn Hav].
  fold patch in Hdn, Hav.
  assert (Hnone : ∀ rows : list Profile,
            rows = profiles b →
            (truthy (display_name existing) = true → @None string = None) ∧
            (truthy (avatar_url existing) = true → @None string = None) ∧
            rows = updateRows {| patch_display_name := None;
                                 patch_avatar_url := None |} (user_id u) (profiles b))
    by (intros rows ->; by rewrite updateRows_nothing).
  assert (Hsame : ∀ q, Ok existing = Ok q →
            id q = id existing ∧
            (truthy (display_name existing) = true →
               display_name q = display_name existing) ∧
            (truthy (avatar_url existing) = true →
               avatar_url q = avatar_url existing))
    by (by intros q [= <-]).
  destruct (nonEmpty patch).
  - destruct (updateProfile patch (user_id u) b1) as [[[e|]|msg] b2] eqn:Hupd.
    + (* the update was refused *)
      exists {| patch_display_name := None; patch_avatar_url := None |}. simpl.
      assert (profiles b2 = profiles b) as Hb2.
      { rewrite <- Hrows. unfold updateProfile, call in Hupd.
        destruct (faults b1) as [|[m|] rest]; by inversion Hupd. }
      destruct (Hnone _ Hb2) as (? & ? & ?). done.
    + (* the update went through *)
      assert (Hb2 : profiles b2 = updateRows patch (user_id u) (profiles b)).
      { rewrite <- Hrows. unfold updateProfile, call in Hupd.
        destruct (faults b1) as [|[m|] rest]; by inversion Hupd. }
      exists patch.
      destruct (selectProfile (user_id u) b2) as [[[p'|]|msg] b3] eqn:Hsel2; simpl.
      * apply selectProfile_inv in Hsel2 as [Hone2 Hrows2].
        rewrite Hb2, filter_updateRows, Hone in Hone2.
        injection Hone2 as <-.
        destruct (applyPatch_keeps patch existing) as [Kdn Kav].
        split; [done|]. split; [done|]. split; [by rewrite Hrows2|].
        intros q [= <-]. split; [done|]. split; intros Ht; auto.
      * apply selectProfile_rows in Hsel2.
        split; [done|]. split; [done|]. split; [by rewrite Hsel2|]. done.
      * apply selectProfile_rows in Hsel2.
        split; [done|]. split; [done|]. split; [by rewrite Hsel2|]. done.
    + unfold updateProfile, call in Hupd.
      destruct (faults b1) as [|[m|] rest]; by inversion Hupd.
  - exists {| patch_display_name := None; patch_avatar_url := None |}. simpl.
    destruct (Hnone _ Hrows) as (? & ? & ?). done.
Qed.

Lemma call_Ok {A} (onFault : string → A) run b :
  ∃ a b', call onFault run b = (Ok a, b').
Proof.
  unfold call. destruct (faults b) as [|[msg|] rest];
    try destruct (run (profiles b)); eauto.
Qed.

Lemma insertProfile_refused row b e b' :
  insertProfile row b = (Ok (Some e), b') → profiles b' = profiles b.
Proof.
  unfold insertProfile, call.
  destruct (faults b) as [|[msg|] rest]; try case_decide; by intros [= <- <-].
Qed.

Lemma insertProfile_done row b b' :
  insertProfile row b = (Ok None, b') → id row ∉ id <$> profiles b.
Proof.
  unfold insertProfile, call.
  destruct (faults b) as [|[msg|] rest]; try case_decide; by intros [= <-].
Qed.

(** C8. When the table holds the profile of the user, [ensureProfile],
    whichever of its calls to the store fail, writes at most a patch that
    carries no field the existing record has a non-empty value for, to the
    rows of that user only; and the profile it returns has the existing
    display name and avatar wherever those were non-empty, whatever the
    identity provider suggests. *)
Theorem ensureProfile_patches_missing_only
    (u : User) (b : Backend) (existing : Profile) :
  filter (λ r, id r = user_id u) (profiles b) = [existing] →
  ∃ patch,
    (truthy (display_name existing) = true → patch_display_name patch = None) ∧
    (truthy (avatar_url existing) = true → patch_avatar_url patch = None) ∧
    profiles (snd (ensureProfile u b)) = updateRows patch (user_id u) (profiles b) ∧
    ∀ p, fst (ensureProfile u b) = Ok p →
      id p = id existing ∧
      (truthy (display_name existing) = true → display_name p = display_name existing) ∧
      (truthy (avatar_url existing) = true → avatar_url p = avatar_url existing).
Proof.
  intros Hrow.
  destruct (call_Ok (λ _, None)
              (λ rows, (match filter (λ r, id r = user_id u) rows with
                        | [r] => Some r
                        | _ => None
                        end, rows)) b) as ([e|] & b1 & Hsel).
  { (* the first read finds the record *)
    pose proof (selectProfile_inv _ _ _ _ Hsel) as [Hone _].
    rewrite Hrow in Hone. injection Hone as <-.
    by apply (ensureProfile_after_select u b b1). }
  (* the first read fails: nothing is written *)
  exists {| patch_display_name := None; patch_avatar_url := None |}.
  rewrite updateRows_nothing.
  split; [done|]. split; [done|].
  fold (selectProfile (user_id u)) in Hsel.
  pose proof (selectProfile_rows _ _ _ _ Hsel) as Hb1.
  unfold ensureProfile, bind. rewrite Hsel.
  destruct (insertProfile _ b1) as [[[e|]|msg] b2] eqn:Hins.
  - apply insertProfile_refused in Hins as Hb2.
    destruct (selectProfile (user_id u) b2) as [[[p|]|msg] b3] eqn:Hsel2; simpl.
    + apply selectProfile_inv in Hsel2 as [Hone Hb3].
      rewrite Hb2, Hb1, Hrow in Hone. injection Hone as <-.
      split; [congruence|]. by intros q [= <-].
    + apply selectProfile_rows in Hsel2. split; [congruence|]. done.
    + apply selectProfile_rows in Hsel2. split; [congruence|]. done.
  - apply insertProfile_done in Hins. destruct Hins. simpl. rewrite Hb1.
    apply list_elem_of_fmap. exists existing. split.
    + assert (existing ∈ filter (λ r, id r = user_id u) (profiles b)) as Hin
        by (rewrite Hrow; apply list_elem_of_here).
      by apply list_elem_of_filter in Hin as [-> _].
    + assert (existing ∈ filter (λ r, id r = user_id u) (profiles b)) as Hin
        by (rewrite Hrow; apply list_elem_of_here).
      by apply list_elem_of_filter in Hin as [_ ?].
  - unfold insertProfile, call in Hins.
    destruct (faults b1) as [|[m|] rest]; try case_decide; by inversion Hins.
Qed.

Lemma ensureProfile_patches_missing_only_witness :
  ∃ patch,
    (truthy (Some "anita") = true → patch_display_name patch = None) ∧
    (truthy None = true → patch_avatar_url patch = None) ∧
    profiles (snd (ensureProfile ana store)) = updateRows patch "u-ana" [anaStored] ∧
    ∀ p, fst (ensureProfile ana store) = Ok p →
      id p = "u-ana" ∧
      (truthy (Some "anita") = true → display_name p = Some "anita") ∧
      (truthy None = true → avatar_url p = None).
Proof.
  apply (ensureProfile_patches_missing_only ana store anaStored).
  reflexivity.
Defined.

(** The same with the store failing on the first read: the insert is refused
    as a duplicate, and the record read back is the stored one. *)
Example ensureProfile_ana_retry :
  ensureProfile ana {| profiles := [anaStored]; faults := [Some "timeout"] |}
  = (Ok anaStored, store).
Proof. reflexivity. Qed.

(** The stored alias stays and the missing avatar is filled in. *)
Example ensureProfile_ana :
  fst (ensureProfile ana store)
  = Ok {| id := "u-ana"; display_name := Some "anita";
          avatar_url := Some "https://idp.example/ana.png" |}.
Proof. reflexivity. Qed.

(** ** The generation guard *)

Lemma commitIfLatest_stale runId fn st :
  runId ≠ runIdRef st → commitIfLatest runId fn st = st.
Proof.
  intros Hne. unfold commitIfLatest.
  destruct (mountedRef st); simpl; [|done].
  by apply Nat.eqb_neq in Hne as ->.
Qed.

Lemma commitIfLatest_runId runId fn st :
  (∀ st0, runIdRef (fn st0) = runIdRef st0) →
  runIdRef (commitIfLatest runId fn st) = runIdRef st.
Proof.
  intros Hfn. unfold commitIfLatest.
  destruct (negb _); [done|]. destruct (negb _); [done|]. apply Hfn.
Qed.

Lemma hydrate_runId s st :
  runIdRef (fst (hydrateFromSession s st)) = S (runIdRef st).
Proof.
  unfold hydrateFromSession.
  destruct (s ≫= session_user); simpl;
    repeat (rewrite commitIfLatest_runId; [|done]); done.
Qed.

Lemma step_runId ev st :
  runIdRef (step ev st) =
  match ev with Hydrate _ => S (runIdRef st) | _ => runIdRef st end.
Proof.
  destruct ev; simpl; try done; try by apply commitIfLatest_runId.
  apply hydrate_runId.
Qed.

Lemma run_runId_mono evs st : runIdRef st ≤ runIdRef (run evs st).
Proof.
  revert st. induction evs as [|ev evs IH]; intros st; simpl; [done|].
  etrans; [|apply IH]. rewrite step_runId. destruct ev; lia.
Qed.

Lemma step_attempt ev r st :
  attempt ev = Some r → ∃ fn, step ev st = commitIfLatest r fn st.
Proof. destruct ev; intros [= <-]; simpl; eexists; reflexivity. Qed.

(** C2. Let attempt 1 be a hydration and [r1] the generation it captured.
    Once a second hydration has started, whatever happened in between and
    whatever happens afterwards, every commit made on behalf of attempt 1 is
    discarded: the state is left as it is. In general a commit made on behalf
    of an attempt changes the state only if that attempt is the one started
    last. *)
Theorem stale_hydration_discarded
    (st : State) (s1 s2 : option Session) (between after : list Event) :
  let st1 := step (Hydrate s1) st in
  let r1 := runIdRef st1 in
  let st' := run after (step (Hydrate s2) (run between st1)) in
  (∀ fn, commitIfLatest r1 fn st' = st') ∧
  (∀ ev, attempt ev = Some r1 → step ev st' = st') ∧
  (∀ ev r st0, attempt ev = Some r → step ev st0 ≠ st0 → r = runIdRef st0).
Proof.
  intros st1 r1 st'.
  assert (Hlt : r1 < runIdRef st').
  { unfold st'. eapply Nat.lt_le_trans; [|apply run_runId_mono].
    rewrite step_runId. pose proof (run_runId_mono between st1). unfold r1. lia. }
  split; [|split].
  - intros fn. apply commitIfLatest_stale. lia.
  - intros ev [fn ->]%(step_attempt _ _ st'). apply commitIfLatest_stale. lia.
  - intros ev r st0 [fn ->]%(step_attempt _ _ st0) Hchanged.
    destruct (decide (r = runIdRef st0)); [done|].
    destruct Hchanged. by apply commitIfLatest_stale.
Qed.

Lemma stale_hydration_discarded_witness :
  step (ProfileResolved 1 anaStored)
       (run [] (step (Hydrate None) (run [] (step (Hydrate anaSession) signedOut))))
  = run [] (step (Hydrate None) (run [] (step (Hydrate anaSession) signedOut))).
Proof.
  apply (proj1 (proj2 (stale_hydration_discarded signedOut anaSession None [] []))).
  reflexivity.
Defined.

(** Ana signs in and out again before her profile arrives: the late result
    and the late [finally] of the first attempt change nothing. *)
Example hydration_race :
  let st := run [Hydrate anaSession; Hydrate None] signedOut in
  run [ProfileResolved 1 anaStored; ProfileSettled 1] st = st ∧
  profile st = None ∧ user st = None ∧ runIdRef st = 2.
Proof. by vm_compute. Qed.

End AuthProviderSpec.

(** * Properties of Chat.tsx *)

Module ChatSpec.
Import Chat.

(** ** Example data *)

Definition alice : string := "3f0c".
Definition bob : string := "9a1e".

Definition bobProfile : Profile :=
  {| p_id := bob; p_display_name := Some "Bob"; p_avatar_url := None |}.

Definition hello : Message :=
  {| id := "m1"; sender_id := bob; receiver_id := alice;
     body := "hola"; created_at := "2024-05-01T10:00:00Z" |}.

Definition history : State :=
  {| messages := [hello]; text := "que tal"; error := "" |}.

Definition echo : Message :=
  {| id := "m2"; sender_id := alice; receiver_id := bob;
     body := "que tal"; created_at := "2024-05-01T10:00:05Z" |}.

(** Identifiers issued by the identity provider are UUIDs; in particular
    they do not contain the delimiter of the channel name. *)
Definition colon : Ascii.ascii :=
  Ascii.Ascii false true false true true true false false.

Fixpoint colonFree (s : string) : bool :=
  match s with
  | EmptyString => true
  | String c s' => negb (Ascii.eqb c colon) && colonFree s'
  end.

Lemma samePair_spec m me other :
  samePair m me other = true ↔
  (sender_id m = me ∧ receiver_id m = other) ∨
  (sender_id m = other ∧ receiver_id m = me).
Proof.
  unfold samePair.
  rewrite orb_true_iff, !andb_true_iff, !String.eqb_eq. tauto.
Qed.

Lemma present_spec (x : string) (l : list Message) :
  existsb (λ y, String.eqb (id y) x) l = true ↔ x ∈ id <$> l.
Proof.
  induction l as [|y l IH]; simpl.
  - split; [discriminate | by intros ?%elem_of_nil].
  - rewrite orb_true_iff, IH, String.eqb_eq, elem_of_cons.
    split; (intros [H|H]; [left; by symmetry | by right]).
Qed.

Lemma filter_other_ids (x : string) (l : list Message) :
  x ∉ id <$> l → filter (λ m, id m ≠ x) l = l.
Proof.
  induction l as [|y l IH]; simpl; [done|].
  rewrite not_elem_of_cons. intros [Hne Hl].
  rewrite filter_cons_True by done. by rewrite IH.
Qed.

Lemma count_fresh_snoc (x : string) (l : list Message) (m : Message) :
  x ∉ id <$> l → id m = x → length (filter (λ y, id y = x) (l ++ [m])) = 1.
Proof.
  intros Hfresh Hm. rewrite filter_app, length_app.
  replace (filter (λ y, id y = x) l) with (@nil Message).
  - by rewrite filter_cons_True.
  - symmetry. induction l as [|y l IH]; [done|].
    simpl in Hfresh. apply not_elem_of_cons in Hfresh as [Hne Hl].
    rewrite filter_cons_False by congruence. auto.
Qed.

(** The shape of [send] when it reaches the backend insert. *)
Lemma send_await trim me selected uuid now st st1 sent :
  send trim me selected uuid now st = AwaitInsert st1 sent →
  id sent = uuid ∧ text st1 = "" ∧ error st1 = "" ∧
  messages st1 = messages st ++ [sent].
Proof.
  unfold send. destruct me as [me|], selected as [sel|]; try discriminate.
  destruct (negb _ || negb _); [discriminate|].
  destruct (negb _); [discriminate|].
  intros [= <- <-]. done.
Qed.

(** C3. A realtime INSERT event is appended exactly when its sender/receiver
    pair is the active conversation (in either direction) and its identifier
    is not in the list yet; otherwise the state is untouched. Hence an
    optimistic send with a fresh identifier [uuid] followed by a push that
    carries [uuid] leaves one entry with that identifier. *)
Theorem onInsert_appends_iff (me other : string) (m : Message) (st : State) :
  let matches :=
    (sender_id m = me ∧ receiver_id m = other) ∨
    (sender_id m = other ∧ receiver_id m = me) in
  let present := id m ∈ id <$> messages st in
  (matches ∧ ¬ present →
     onInsert me other m st = setMessages (λ prev, prev ++ [m]) st) ∧
  (¬ (matches ∧ ¬ present) → onInsert me other m st = st) ∧
  (∀ trim sel uuid now st1 sent,
     uuid ∉ id <$> messages st →
     send trim (Some me) (Some sel) uuid now st = AwaitInsert st1 sent →
     id m = uuid →
     length (filter (λ x, id x = uuid)
               (messages (onInsert me (p_id sel) m st1))) = 1).
Proof.
  intros matches present. unfold onInsert, setMessages, appendUnlessPresent.
  repeat split.
  - intros [Hm Hp]. apply samePair_spec in Hm as ->. simpl.
    destruct (existsb _ _) eqn:E; [|done].
    apply present_spec in E. by destruct Hp.
  - intros Hn. destruct (samePair m me other) eqn:Hs; simpl; [|done].
    destruct (existsb _ _) eqn:E; [by destruct st|].
    destruct Hn. split; [by apply samePair_spec|].
    intros Hp%present_spec. congruence.
  - intros trim sel uuid now st1 sent Hfresh Hsend Hid.
    apply send_await in Hsend as (Hsent & _ & _ & Hmsgs).
    assert (Hone : length (filter (λ x, id x = uuid) (messages st1)) = 1)
      by (rewrite Hmsgs; by apply count_fresh_snoc).
    destruct (negb _); [done|]. simpl.
    destruct (existsb _ _) eqn:E; [done|].
    apply not_true_iff_false in E. destruct E. apply present_spec.
    rewrite Hmsgs, fmap_app, elem_of_app. right. simpl.
    rewrite Hid, Hsent. apply list_elem_of_here.
Qed.

Lemma onInsert_appends_iff_witness :
  length (filter (λ x, id x = "m2")
            (messages (onInsert alice bob echo
               (setMessages (λ prev, prev ++ [echo]) (setText "" history))))) = 1.
Proof.
  refine (proj2 (proj2 (onInsert_appends_iff alice bob echo history))
            (λ s, s) bobProfile "m2" "2024-05-01T10:00:05Z" _ echo _ _ _).
  - vm_compute. by intros [?|?]%elem_of_cons; [|set_solver].
  - reflexivity.
  - reflexivity.
Defined.

(** C6. When the backend insert of an optimistic send fails, the message
    list is back to what it was before the send (the identifier being fresh),
    the error message is shown, and the input stays cleared. *)
Theorem send_failure_rolls_back trim me selected uuid now st st1 sent msg :
  uuid ∉ id <$> messages st →
  send trim me selected uuid now st = AwaitInsert st1 sent →
  messages (send_resume sent (Some msg) st1) = messages st ∧
  error (send_resume sent (Some msg) st1) = msg ∧
  text st1 = "" ∧
  text (send_resume sent (Some msg) st1) = "".
Proof.
  intros Hfresh Hsend.
  apply send_await in Hsend as (Hsent & Htext & _ & Hmsgs).
  unfold send_resume, setMessages, setError. simpl.
  rewrite Hmsgs, Hsent, filter_app, filter_other_ids by done.
  rewrite filter_cons_False by (intros H; by apply H).
  rewrite filter_nil, app_nil_r. done.
Qed.

Lemma send_failure_rolls_back_witness :
  messages (send_resume echo (Some "network down")
              (setMessages (λ prev, prev ++ [echo]) (setText "" history)))
    = [hello].
Proof.
  refine (proj1 (send_failure_rolls_back (λ s, s) (Some alice) (Some bobProfile)
            "m2" "2024-05-01T10:00:05Z" history _ echo "network down" _ _)).
  - vm_compute. by intros [?|?]%elem_of_cons; [|set_solver].
  - reflexivity.
Defined.

Lemma present_filter (x y : string) (l : list Message) :
  y ≠ x →
  existsb (λ m, String.eqb (id m) y) (filter (λ m, id m ≠ x) l)
  = existsb (λ m, String.eqb (id m) y) l.
Proof.
  intros Hne. induction l as [|m l IH]; [done|].
  rewrite filter_cons. destruct (decide (id m ≠ x)) as [Hm|Hm]; simpl.
  - by rewrite IH.
  - rewrite IH. apply dec_stable in Hm.
    rewrite (proj2 (String.eqb_neq (id m) y)) by congruence. done.
Qed.

Lemma onInsert_filter me other (x : string) (m : Message) (st : State) :
  id m ≠ x →
  filter (λ m, id m ≠ x) (messages (onInsert me other m st))
  = messages (onInsert me other m (setMessages (filter (λ m, id m ≠ x)) st)).
Proof.
  intros Hne. unfold onInsert. destruct (negb _); [done|].
  unfold setMessages, appendUnlessPresent. simpl.
  rewrite (present_filter x (id m)) by done.
  destruct (existsb _ _); [done|].
  by rewrite filter_app, filter_cons_True.
Qed.

(** Realtime pushes that arrive while the insert is in flight do not disturb
    the rollback: it removes the optimistic record and nothing else. *)
Lemma rollback_between_pushes
    trim me selected uuid now st st1 sent msg me' other (pushes : list Message) :
  uuid ∉ id <$> messages st →
  Forall (λ m, id m ≠ uuid) pushes →
  send trim me selected uuid now st = AwaitInsert st1 sent →
  messages (send_resume sent (Some msg)
              (foldl (λ s m, onInsert me' other m s) st1 pushes))
  = messages (foldl (λ s m, onInsert me' other m s) st pushes).
Proof.
  intros Hfresh Hpushes Hsend.
  apply send_await in Hsend as (Hsent & _ & _ & Hmsgs).
  unfold send_resume. simpl. rewrite Hsent.
  assert (Hstart : filter (λ m, id m ≠ uuid) (messages st1) = messages st).
  { rewrite Hmsgs, filter_app, filter_other_ids by done.
    rewrite filter_cons_False by (intros H; by apply H).
    by rewrite filter_nil, app_nil_r. }
  clear Hmsgs Hfresh. revert st st1 Hstart.
  induction Hpushes as [|m pushes Hm _ IH]; intros st st1 Hstart; [done|].
  simpl. apply IH. rewrite onInsert_filter by done.
  unfold onInsert, setMessages. simpl. rewrite Hstart.
  by destruct (negb _).
Qed.

Lemma ltb_asym a b : String.ltb a b = true → String.ltb b a = false.
Proof.
  unfold String.ltb. rewrite (String.compare_antisym b a).
  by destruct (String.compare a b).
Qed.

Lemma ltb_connex a b : String.ltb a b = false → String.ltb b a = false → a = b.
Proof.
  unfold String.ltb. rewrite (String.compare_antisym b a).
  destruct (String.compare a b) eqn:E; try discriminate.
  intros _ _. by apply String.compare_eq_iff.
Qed.

Lemma append_nil t : "" +:+ t = t.
Proof. reflexivity. Qed.

Lemma append_cons c s t : String c s +:+ t = String c (s +:+ t).
Proof. reflexivity. Qed.

Lemma delimited_inj a b c d :
  colonFree a = true → colonFree c = true →
  a +:+ ":" +:+ b = c +:+ ":" +:+ d → a = c ∧ b = d.
Proof.
  revert c. induction a as [|x a IH]; intros [|y c]; simpl;
    rewrite ?append_nil, ?append_cons, ?append_nil.
  - by intros _ _ [= ->].
  - intros _ Hc [= <- _]. by vm_compute in Hc.
  - intros Ha _ [= -> _]. by vm_compute in Ha.
  - intros [_ Ha]%andb_true_iff [_ Hc]%andb_true_iff [= -> Heq].
    destruct (IH c Ha Hc Heq) as [-> ->]. done.
Qed.

(** C7, as the code has it. The channel name does not depend on the order of
    the two participants; and for identifiers free of [":"], two pairs that
    get the same channel name are the same unordered pair. *)
Theorem dmChannel_canonical :
  (∀ a b, dmChannel a b = dmChannel b a) ∧
  (∀ a b c d,
     colonFree a = true → colonFree b = true →
     colonFree c = true → colonFree d = true →
     dmChannel a b = dmChannel c d →
     (a = c ∧ b = d) ∨ (a = d ∧ b = c)).
Proof.
  split.
  - intros a b. unfold dmChannel.
    destruct (String.ltb a b) eqn:Hab.
    + by rewrite (ltb_asym _ _ Hab).
    + destruct (String.ltb b a) eqn:Hba; [done|].
      by rewrite (ltb_connex _ _ Hab Hba).
  - intros a b c d Ha Hb Hc Hd. unfold dmChannel.
    destruct (String.ltb a b), (String.ltb c d);
      intros Heq%(inj (String.append "dm:"));
      apply delimited_inj in Heq as [-> ->]; auto.
Qed.

Lemma dmChannel_canonical_witness :
  ("u1" = "u2" ∧ "u2" = "u1") ∨ ("u1" = "u1" ∧ "u2" = "u2").
Proof.
  apply (proj2 dmChannel_canonical "u1" "u2" "u2" "u1"); reflexivity.
Defined.

(** C7, as stated, fails on identifiers that contain the delimiter: the pairs
    {"x:y", "z"} and {"x", "y:z"} are different and share a channel name. *)
Lemma dmChannel_collision :
  dmChannel "x:y" "z" = dmChannel "x" "y:z" ∧
  "x:y" ≠ "x" ∧ "x:y" ≠ "y:z".
Proof. split; [reflexivity|]. split; discriminate. Qed.

End ChatSpec.

(** * Properties of Comments.tsx *)

Module CommentsSpec.
Import Comments.

(** ** Notions the statements use *)

(** The parent a record points to. An empty [parent_id] counts as none, as
    everywhere in Comments.tsx ([if (r.parent_id)]). *)
Definition parentLink (r : Row) : option string :=
  if truthy (parent_id r) then parent_id r else None.

(** The identifiers reachable from [target] along parent→child links. *)
Inductive Descendant (prev : list Row) (target : string) : string → Prop :=
| desc_self : Descendant prev target target
| desc_child r p :
    Descendant prev target p → r ∈ prev → parentLink r = Some p →
    Descendant prev target (id r).

(** The children of [p], in the order of the collection. *)
Definition kids (prev : list Row) (p : string) : list string :=
  id <$> filter (λ r, parentLink r = Some p) prev.

(** Rows whose parent has not been visited yet. *)
Definition waiting (T : gset string) (r : Row) : bool :=
  match parentLink r with
  | Some p => bool_decide (p ∉ T)
  | None => false
  end.

(** A comment on the photo of the examples. *)
Definition commentAt (i : string) (parent : option string) (time : string) : Row :=
  {| id := i; photo_id := "photo-1"; parent_id := parent; user_id := "u-ana";
     display_name := Some "Ana"; body := "..."; created_at := time |}.

Definition comment (i : string) (parent : option string) : Row :=
  commentAt i parent "2024-05-01T10:00:00Z".

(** Root A with children B and C, and D a child of B. *)
Definition thread : list Row :=
  [comment "A" None; comment "B" (Some "A");
   comment "C" (Some "A"); comment "D" (Some "B")].

(** The records of a tree, the node first (the order in which [CommentNode]
    renders them). *)
Fixpoint flatten (n : Node) : list Row :=
  row n :: flat_map flatten (replies n).

Definition flattenAll (forest : list Node) : list Row := flat_map flatten forest.

(** [P] holds of the root sequence and of every [replies] sequence. *)
Inductive EverySiblings (P : list Row → Prop) : list Node → Prop :=
| every_siblings forest :
    P (row <$> forest) →
    Forall (λ n, EverySiblings P (replies n)) forest →
    EverySiblings P forest.

(** The records behind the node objects. *)
Definition rowsOf (c : gmap string Cell) : gmap string Row := cell_row <$> c.

#[global] Instance ArrRef_eq_dec : EqDecision ArrRef.
Proof. solve_decision. Defined.

(** The order [buildTree] promises for a sibling sequence [s] built from
    [rows]: creation times ascend, and for every time [t] the records of [s]
    created at [t] stand in the order they have in [rows]. *)
Definition Chronological (getTime : string → Z) (rows s : list Row) : Prop :=
  StronglySorted (λ r r', (getTime (created_at r) ≤ getTime (created_at r'))%Z) s ∧
  ∀ t, filter (λ r, getTime (created_at r) = t) s `sublist_of` rows.

(** The record of the collection with identifier [k]. *)
Definition lookupRow (rows : list Row) (k : string) : option Row :=
  List.find (λ q, String.eqb (id q) k) rows.

(** The record of the collection that [r] replies to, if there is one. *)
Definition parentIn (rows : list Row) (r : Row) : option Row :=
  p ← parentLink r; lookupRow rows p.

(** Following the parents of [r] ends within [fuel] records. *)
Fixpoint climbs (fuel : nat) (rows : list Row) (r : Row) : bool :=
  match fuel with
  | 0 => false
  | S fuel' =>
    match parentIn rows r with
    | None => true
    | Some q => climbs fuel' rows q
    end
  end.

(** No record of the collection is its own ancestor: from every record,
    following the parent links inside the collection comes to an end. *)
Definition acyclic (rows : list Row) : bool :=
  forallb (climbs (length rows) rows) rows.

(** [Q parent s] holds of the root sequence with no parent, and of the
    [replies] sequence of every node with the identifier of that node. *)
Inductive Family (Q : option string → list Row → Prop)
    : option string → list Node → Prop :=
| family parent forest :
    Q parent (row <$> forest) →
    Forall (λ n, Family Q (Some (id (row n))) (replies n)) forest →
    Family Q parent forest.

(** The identifier of the record of the collection that [r] replies to. *)
Definition parentKey (rows : list Row) (r : Row) : option string :=
  id <$> parentIn rows r.

(** The records of the collection that reply to [parent], in the order of
    the collection; with [None], those that reply to no record of it. *)
Definition repliesTo (rows : list Row) (parent : option string) : list Row :=
  filter (λ r, parentKey rows r = parent) rows.

(** [s] is the stable sort of [l] by creation time: the same records, in
    ascending order of time, those of one same time in the order of [l]. *)
Definition StableSortOf (getTime : string → Z) (l s : list Row) : Prop :=
  s ≡ₚ l ∧
  StronglySorted (λ r r', (getTime (created_at r) ≤ getTime (created_at r'))%Z) s ∧
  ∀ t, filter (λ r, getTime (created_at r) = t) s
       = filter (λ r, getTime (created_at r) = t) l.

(** A clock for the examples. It reads the digits of a timestamp as one
    number, which orders ISO-8601 UTC timestamps as [Date] does. *)
Fixpoint digitsValue (s : string) (acc : Z) : Z :=
  match s with
  | EmptyString => acc
  | String c s' =>
    let n := Z.of_nat (Ascii.nat_of_ascii c) in
    if ((48 <=? n) && (n <=? 57))%Z
    then digitsValue s' (10 * acc + (n - 48))%Z
    else digitsValue s' acc
  end.

Definition stamp (s : string) : Z := digitsValue s 0.

Definition leaf (r : Row) : Node := {| row := r; replies := [] |}.

Definition post : Row := commentAt "P" None "2024-05-01T09:00:00Z".
Definition c1 : Row := commentAt "c1" (Some "P") "2024-05-01T10:00:01Z".
Definition c2 : Row := commentAt "c2" (Some "P") "2024-05-01T10:00:02Z".
Definition c3 : Row := commentAt "c3" (Some "P") "2024-05-01T10:00:03Z".

(** A second reply written in the same instant as [c1]. *)
Definition c1' : Row := commentAt "c1b" (Some "P") "2024-05-01T10:00:01Z".

(** A reply to a comment that is gone. *)
Definition orphan : Row := commentAt "o" (Some "gone") "2024-05-01T08:00:00Z".

(** Two records that name each other as parent. *)
Definition cycle : list Row := [comment "A" (Some "B"); comment "B" (Some "A")].

(** ** Cascading deletion *)

Lemma addChild_lookup m r p :
  default [] (addChild m r !! p)
  = default [] (m !! p) ++ (if decide (parentLink r = Some p) then [id r] else []).
Proof.
  unfold addChild, parentLink. destruct (truthy (parent_id r)) eqn:Ht.
  - destruct (parent_id r) as [q|]; [|done].
    destruct (decide (Some q = Some p)) as [[= ->]|Hne].
    + by rewrite lookup_insert_eq.
    + rewrite lookup_insert_ne by congruence. by rewrite app_nil_r.
  - rewrite decide_False by done. by rewrite app_nil_r.
Qed.

Lemma childrenByParent_lookup prev p :
  default [] (childrenByParent prev !! p) = kids prev p.
Proof.
  unfold childrenByParent, kids.
  transitivity (default [] ((∅ : gmap string (list string)) !! p)
                ++ (id <$> filter (λ r, parentLink r = Some p) prev)); [|done].
  generalize (∅ : gmap string (list string)).
  induction prev as [|r prev IH]; intros m; simpl.
  - by rewrite app_nil_r.
  - rewrite IH, addChild_lookup, <- app_assoc. f_equal.
    rewrite filter_cons. by destruct (decide _).
Qed.

Lemma byId_has (prev : list Row) (k : string) :
  is_Some (foldl (λ (m : gmap string Row) r, <[id r := r]> m) ∅ prev !! k)
  ↔ k ∈ id <$> prev.
Proof.
  transitivity (is_Some ((∅ : gmap string Row) !! k) ∨ k ∈ id <$> prev).
  2:{ rewrite lookup_empty. split; [intros [[? [=]]|]; done | auto]. }
  generalize (∅ : gmap string Row).
  induction prev as [|r prev IH]; intros m; simpl.
  - rewrite elem_of_nil. tauto.
  - rewrite IH, elem_of_cons. destruct (decide (id r = k)) as [<-|Hne].
    + rewrite lookup_insert_eq. split; [auto|]. intros _. left. eauto.
    + rewrite lookup_insert_ne by done. split; [tauto|].
      intros [?|[?|?]]; [tauto|congruence|tauto].
Qed.

Lemma pushAll_length (l stack : list string) :
  length (foldl (λ s k, k :: s) stack l) = length stack + length l.
Proof.
  revert stack. induction l as [|x l IH]; intros stack; simpl; [lia|].
  rewrite IH. simpl. lia.
Qed.

Lemma pushAll_elem (l stack : list string) k :
  k ∈ foldl (λ s k, k :: s) stack l ↔ k ∈ l ∨ k ∈ stack.
Proof.
  revert stack. induction l as [|x l IH]; intros stack; simpl.
  - rewrite elem_of_nil. tauto.
  - rewrite IH, !elem_of_cons. tauto.
Qed.

Lemma waiting_some T r p : parentLink r = Some p → waiting T r ↔ p ∉ T.
Proof. unfold waiting. intros ->. apply bool_decide_spec. Qed.

Lemma waiting_none T r : parentLink r = None → ¬ waiting T r.
Proof. unfold waiting. intros -> []. Qed.

Lemma waiting_visit (prev : list Row) (T : gset string) cur :
  cur ∉ T →
  length (filter (λ r, waiting ({[cur]} ∪ T) r) prev) + length (kids prev cur)
  = length (filter (λ r, waiting T r) prev).
Proof.
  intros Hcur. unfold kids. rewrite length_fmap.
  induction prev as [|r prev IH]; [done|].
  destruct (parentLink r) as [p|] eqn:Hp.
  - destruct (decide (p = cur)) as [->|Hne].
    + rewrite (filter_cons_False (λ r, waiting ({[cur]} ∪ T) r))
        by (rewrite (waiting_some _ _ _ Hp); set_solver).
      rewrite (filter_cons_True (λ r, parentLink r = Some cur)) by done.
      rewrite (filter_cons_True (λ r, waiting T r))
        by (by rewrite (waiting_some _ _ _ Hp)).
      simpl. lia.
    + rewrite (filter_cons_False (λ r, parentLink r = Some cur)) by congruence.
      destruct (decide (p ∈ T)).
      * rewrite (filter_cons_False (λ r, waiting ({[cur]} ∪ T) r))
          by (rewrite (waiting_some _ _ _ Hp); set_solver).
        rewrite (filter_cons_False (λ r, waiting T r))
          by (rewrite (waiting_some _ _ _ Hp); set_solver).
        done.
      * rewrite (filter_cons_True (λ r, waiting ({[cur]} ∪ T) r))
          by (rewrite (waiting_some _ _ _ Hp); set_solver).
        rewrite (filter_cons_True (λ r, waiting T r))
          by (rewrite (waiting_some _ _ _ Hp); set_solver).
        simpl. lia.
  - rewrite (filter_cons_False (λ r, waiting ({[cur]} ∪ T) r))
      by (by apply waiting_none).
    rewrite (filter_cons_False (λ r, parentLink r = Some cur)) by congruence.
    rewrite (filter_cons_False (λ r, waiting T r)) by (by apply waiting_none).
    done.
Qed.

Section Collect.

Variable prev : list Row.
Variable children : gmap string (list string).
Hypothesis children_kids : ∀ p, default [] (children !! p) = kids prev p.

Variable target : string.

Lemma collect_terminates fuel stack (T : gset string) :
  length stack + length (filter (λ r, waiting T r) prev) ≤ fuel →
  is_Some (collect fuel children stack T).
Proof using children_kids.
  revert stack T. induction fuel as [|fuel IH]; intros stack T Hm.
  - destruct stack; [by eexists | simpl in Hm; lia].
  - destruct stack as [|cur stack]; [by eexists|]. simpl.
    destruct (decide (cur ∈ T)).
    + apply IH. simpl in Hm. lia.
    + apply IH. rewrite pushAll_length, children_kids.
      pose proof (waiting_visit prev T cur n). simpl in Hm. lia.
Qed.

Lemma collect_reaches fuel stack (T R : gset string) :
  collect fuel children stack T = Some R →
  (∀ k, k ∈ T → Descendant prev target k) →
  (∀ k, k ∈ stack → Descendant prev target k) →
  (target ∈ T ∨ target ∈ stack) →
  (∀ p c, p ∈ T → c ∈ kids prev p → c ∈ T ∨ c ∈ stack) →
  ∀ k, k ∈ R ↔ Descendant prev target k.
Proof using children_kids.
  revert stack T. induction fuel as [|fuel IH]; intros stack T Hrun HT Hstack Htgt Hclosed.
  - destruct stack; [|discriminate]. injection Hrun as <-.
    intros k. split; [auto|]. induction 1 as [|r p _ IHp Hr Hp].
    + destruct Htgt as [?|?%elem_of_nil]; done.
    + destruct (Hclosed p (id r) IHp) as [?|?%elem_of_nil]; [|done..].
      unfold kids. apply list_elem_of_fmap_2. by apply list_elem_of_filter.
  - destruct stack as [|cur stack].
    { injection Hrun as <-.
      intros k. split; [auto|]. induction 1 as [|r p _ IHp Hr Hp].
      + destruct Htgt as [?|?%elem_of_nil]; done.
      + destruct (Hclosed p (id r) IHp) as [?|?%elem_of_nil]; [|done..].
        unfold kids. apply list_elem_of_fmap_2. by apply list_elem_of_filter. }
    simpl in Hrun. destruct (decide (cur ∈ T)) as [Hin|Hnin].
    + apply (IH _ _ Hrun); auto.
      * intros k Hk. apply Hstack. by right.
      * destruct Htgt as [?|[->|?]%elem_of_cons]; auto.
      * intros p c Hp Hc.
        destruct (Hclosed p c Hp Hc) as [?|[->|?]%elem_of_cons]; auto.
    + assert (Hcur : Descendant prev target cur) by (apply Hstack; left).
      apply (IH _ _ Hrun).
      * intros k [->%elem_of_singleton|?]%elem_of_union; auto.
      * intros k [Hk|Hk]%pushAll_elem; [|apply Hstack; by right].
        rewrite children_kids in Hk. unfold kids in Hk.
        apply list_elem_of_fmap in Hk as (r & -> & [Hp Hr]%list_elem_of_filter).
        by eapply desc_child.
      * destruct Htgt as [?|[->|?]%elem_of_cons].
        -- left. set_solver.
        -- left. set_solver.
        -- right. apply pushAll_elem. by right.
      * intros p c [->%elem_of_singleton|Hp]%elem_of_union Hc.
        -- right. apply pushAll_elem. left. by rewrite children_kids.
        -- destruct (Hclosed p c Hp Hc) as [?|[->|?]%elem_of_cons].
           ++ left. set_solver.
           ++ left. set_solver.
           ++ right. apply pushAll_elem. by right.
Qed.

End Collect.

Lemma collect_from_target (prev : list Row) (target : string) :
  ∃ toRemove : gset string,
    collect (S (length prev)) (childrenByParent prev) [target] ∅ = Some toRemove ∧
    ∀ k, k ∈ toRemove ↔ Descendant prev target k.
Proof.
  destruct (collect_terminates prev (childrenByParent prev)
              (childrenByParent_lookup prev) (S (length prev)) [target] ∅)
    as [R HR].
  { simpl. pose proof (length_filter (λ r, waiting ∅ r) prev). lia. }
  exists R. split; [done|].
  apply (collect_reaches prev (childrenByParent prev)
           (childrenByParent_lookup prev) target _ _ _ _ HR).
  - intros k ?%not_elem_of_empty. done.
  - intros k ->%list_elem_of_singleton. constructor.
  - right. apply list_elem_of_here.
  - intros p c ?%not_elem_of_empty. done.
Qed.

(** C4. When the target is in the collection, the local pruning removes the
    records whose identifier is the target or is reachable from it along
    parent→child links, and no other record; the records that stay keep their
    order. *)
Theorem prune_removes_descendants (prev : list Row) (target : string) :
  target ∈ id <$> prev →
  ∃ toRemove : gset string,
    (∀ k, k ∈ toRemove ↔ Descendant prev target k) ∧
    prune target prev = Some (filter (λ r, id r ∉ toRemove) prev).
Proof.
  intros Hin. destruct (collect_from_target prev target) as (R & Hrun & HR).
  exists R. split; [done|]. unfold prune. rewrite Hrun. simpl.
  by rewrite bool_decide_eq_true_2 by (by apply byId_has).
Qed.

Lemma prune_removes_descendants_witness :
  ∃ toRemove : gset string,
    (∀ k, k ∈ toRemove ↔ Descendant thread "B" k) ∧
    prune "B" thread = Some (filter (λ r, id r ∉ toRemove) thread).
Proof.
  apply (prune_removes_descendants thread "B").
  apply list_elem_of_further, list_elem_of_here.
Defined.

Example prune_thread_A : prune "A" thread = Some [].
Proof. by vm_compute. Qed.

Example prune_thread_B :
  prune "B" thread = Some [comment "A" None; comment "C" (Some "A")].
Proof. by vm_compute. Qed.

(** C10. For an identifier that is not in the collection, the pruning step
    returns the collection as it is. *)
Theorem prune_absent_target (prev : list Row) (target : string) :
  target ∉ id <$> prev → prune target prev = Some prev.
Proof.
  intros Hout. destruct (collect_from_target prev target) as (R & Hrun & _).
  unfold prune. rewrite Hrun. simpl.
  by rewrite bool_decide_eq_false_2 by (by rewrite byId_has).
Qed.

Lemma prune_absent_target_witness : prune "Z" thread = Some thread.
Proof.
  apply (prune_absent_target thread "Z").
  vm_compute. intros H. repeat (apply elem_of_cons in H as [[=]|H]).
  by apply elem_of_nil in H.
Defined.

(** C5 does not hold of the code: [deleteComment] clears the reply target
    only when it is the deleted comment itself. Deleting A while the reply
    target is its child B removes B from the collection and leaves the reply
    target pointing at it. *)
Theorem deleteComment_keeps_descendant_reply_target :
  let st := {| rows := thread; text := ""; replyTo := Some "B";
               error := ""; busyId := None |} in
  ∃ st', deleteComment true true None "A" st = Some st' ∧
         rows st' = [] ∧ replyTo st' = Some "B".
Proof. eexists. split; [by vm_compute|]. done. Qed.

(** ** Stable sorting *)

Section Sort.

Context {A : Type} (key : A → Z).

(** The comparator [(a, b) => key(a) - key(b)]. *)
Definition byKey (x y : A) : Z := (key x - key y)%Z.

Definition Ascending (l : list A) : Prop :=
  StronglySorted (λ x y, (key x ≤ key y)%Z) l.

(** [l'] holds the elements of [l], those of equal key in the order they
    have in [l]. *)
Definition StableImage (l l' : list A) : Prop :=
  l ≡ₚ l' ∧ ∀ t, filter (λ x, key x = t) l' = filter (λ x, key x = t) l.

Lemma arraySort_ext (cmp cmp' : A → A → Z) l :
  (∀ x y, cmp x y = cmp' x y) → arraySort cmp l = arraySort cmp' l.
Proof.
  intros Hext. induction l as [|x l IH]; simpl; [done|]. rewrite IH.
  generalize (arraySort cmp' l). intros k.
  induction k as [|y k IHk]; simpl; [done|]. by rewrite Hext, IHk.
Qed.

Lemma insertBy_Permutation x l : insertBy byKey x l ≡ₚ x :: l.
Proof.
  induction l as [|y l IH]; simpl; [done|].
  destruct (_ <=? _)%Z; [done|]. rewrite IH. apply Permutation_swap.
Qed.

Lemma arraySort_Permutation l : l ≡ₚ arraySort byKey l.
Proof.
  induction l as [|x l IH]; simpl; [done|].
  rewrite insertBy_Permutation. by constructor.
Qed.

Lemma insertBy_Ascending x l : Ascending l → Ascending (insertBy byKey x l).
Proof.
  unfold Ascending. induction 1 as [|y l Hl IH Hy]; simpl.
  - repeat constructor.
  - unfold byKey at 1. destruct (Z.leb_spec (key x - key y) 0).
    + constructor; [by constructor|].
      constructor; [lia|]. eapply Forall_impl; [done|]. simpl. intros; lia.
    + constructor; [done|].
      rewrite insertBy_Permutation. constructor; [lia|done].
Qed.

Lemma arraySort_Ascending l : Ascending (arraySort byKey l).
Proof.
  induction l as [|x l IH]; simpl; [constructor|]. by apply insertBy_Ascending.
Qed.

Lemma insertBy_filter t x l :
  filter (λ y, key y = t) (insertBy byKey x l) = filter (λ y, key y = t) (x :: l).
Proof.
  induction l as [|y l IH]; simpl; [done|].
  unfold byKey at 1. destruct (Z.leb_spec (key x - key y) 0); [done|].
  rewrite (filter_cons _ y), IH, !(filter_cons _ x), (filter_cons _ y).
  destruct (decide (key x = t)), (decide (key y = t)); try done. lia.
Qed.

Lemma arraySort_filter t l :
  filter (λ y, key y = t) (arraySort byKey l) = filter (λ y, key y = t) l.
Proof.
  induction l as [|x l IH]; simpl; [done|].
  by rewrite insertBy_filter, !(filter_cons _ x), IH.
Qed.

Lemma arraySort_Ascending_id l : Ascending l → arraySort byKey l = l.
Proof.
  induction 1 as [|x l Hl IH Hx]; simpl; [done|]. rewrite IH.
  destruct Hx as [|y l Hy _]; simpl; [done|].
  unfold byKey. by rewrite (proj2 (Z.leb_le _ _)) by lia.
Qed.

Lemma arraySort_StableImage l : StableImage l (arraySort byKey l).
Proof. split; [apply arraySort_Permutation | intros; apply arraySort_filter]. Qed.

Lemma StableImage_refl l : StableImage l l.
Proof. by split. Qed.

Lemma StableImage_trans l1 l2 l3 :
  StableImage l1 l2 → StableImage l2 l3 → StableImage l1 l3.
Proof.
  intros [P1 F1] [P2 F2]. split; [by etrans|]. intros t. by rewrite F2, F1.
Qed.

End Sort.

(** ** The map [byId] *)

Lemma newMap_snoc rows r :
  newMap (rows ++ [r])
  = mapSet (id r) {| cell_row := r; cell_replies := [] |} (newMap rows).
Proof. unfold newMap. by rewrite foldl_app. Qed.

Lemma newMap_inv rows :
  NoDup (newMap rows).1 ∧
  (∀ k, k ∈ (newMap rows).1 ↔ is_Some ((newMap rows).2 !! k)) ∧
  (∀ k, k ∈ (newMap rows).1 ↔ k ∈ id <$> rows) ∧
  (∀ k c, (newMap rows).2 !! k = Some c →
          cell_replies c = [] ∧ id (cell_row c) = k ∧ cell_row c ∈ rows).
Proof.
  induction rows as [|r rows (Hnd & Hdom & Hids & Hcells)] using rev_ind.
  - simpl. split; [constructor|]. split; [|split].
    + intros k. rewrite lookup_empty, elem_of_nil. split; [done|]. by intros [? [=]].
    + done.
    + intros k c. by rewrite lookup_empty.
  - rewrite newMap_snoc. unfold mapSet. simpl.
    destruct ((newMap rows).2 !! id r) as [c0|] eqn:Hr.
    + assert (Hin : id r ∈ (newMap rows).1) by (apply Hdom; eauto).
      split; [done|]. split; [|split].
      * intros k. destruct (decide (id r = k)) as [<-|Hne].
        -- rewrite lookup_insert_eq. split; eauto.
        -- by rewrite lookup_insert_ne.
      * intros k. rewrite fmap_app, elem_of_app, <- Hids. simpl.
        rewrite list_elem_of_singleton. split; [auto|]. by intros [?| ->].
      * intros k c. destruct (decide (id r = k)) as [<-|Hne].
        -- rewrite lookup_insert_eq. intros [= <-]. simpl.
           repeat split. apply elem_of_app. right. apply list_elem_of_here.
        -- rewrite lookup_insert_ne by done. intros (? & ? & ?)%Hcells.
           repeat split; try done. apply elem_of_app. by left.
    + assert (Hout : id r ∉ (newMap rows).1).
      { rewrite Hdom, Hr. by intros [? [=]]. }
      split; [|split; [|split]].
      * apply NoDup_app. split; [done|]. split; [|apply NoDup_singleton].
        intros k Hk ->%list_elem_of_singleton. done.
      * intros k. rewrite elem_of_app, list_elem_of_singleton.
        destruct (decide (id r = k)) as [<-|Hne].
        -- rewrite lookup_insert_eq. split; eauto.
        -- rewrite lookup_insert_ne by done. rewrite <- Hdom.
           split; [by intros [?| ->]|auto].
      * intros k. rewrite fmap_app, !elem_of_app, <- Hids. done.
      * intros k c. destruct (decide (id r = k)) as [<-|Hne].
        -- rewrite lookup_insert_eq. intros [= <-]. simpl.
           repeat split. apply elem_of_app. right. apply list_elem_of_here.
        -- rewrite lookup_insert_ne by done. intros (? & ? & ?)%Hcells.
           repeat split; try done. apply elem_of_app. by left.
Qed.

Lemma newMap_unique_ids rows :
  NoDup (id <$> rows) →
  (newMap rows).1 = id <$> rows ∧
  ∀ r, r ∈ rows →
       (newMap rows).2 !! id r = Some {| cell_row := r; cell_replies := [] |}.
Proof.
  induction rows as [|r rows IH] using rev_ind; intros Hnd.
  - split; [done|]. by intros r ?%elem_of_nil.
  - rewrite fmap_app in Hnd. apply NoDup_app in Hnd as (Hnd & Hfresh & _).
    destruct (IH Hnd) as [Horder Hcells].
    destruct (newMap_inv rows) as (_ & Hdom & Hids & _).
    assert (Hr : (newMap rows).2 !! id r = None).
    { apply eq_None_not_Some. rewrite <- Hdom, Hids. intros Hin.
      apply (Hfresh _ Hin). apply list_elem_of_here. }
    rewrite newMap_snoc. unfold mapSet. simpl. rewrite Hr. split.
    + by rewrite Horder, fmap_app.
    + intros r' [Hin| ->%list_elem_of_singleton]%elem_of_app.
      * rewrite lookup_insert_ne; [by apply Hcells|].
        intros Heq. apply (Hfresh (id r')).
        -- by apply list_elem_of_fmap_2.
        -- rewrite <- Heq. apply list_elem_of_here.
      * by rewrite lookup_insert_eq.
Qed.

(** ** Reading the forest *)

Lemma flattenAll_cons r kids forest :
  flattenAll ({| row := r; replies := kids |} :: forest)
  = r :: flattenAll kids ++ flattenAll forest.
Proof. reflexivity. Qed.

(** ** The parent relation the code sees *)

Section Static.

Variable getTime : string → Z.

(** The rows held by the node objects; they never change. *)
Variable R : gmap string Row.

(** [byId] holds every record under its own identifier. *)
Hypothesis R_keyed : ∀ k r, R !! k = Some r → id r = k.

(** The parent [buildTree] links the node [k] to, as [parentRef] finds it. *)
Definition par (k : string) : option string :=
  r ← R !! k;
  p ← parent_id r;
  if truthy (Some p) && bool_decide (is_Some (R !! p)) then Some p else None.

(** The parent whose children an array holds. *)
Definition parentOf (a : ArrRef) : option string :=
  match a with
  | Roots => None
  | RepliesOf p => Some p
  end.

(** The arrays as the linking loop leaves them, [order] being the keys of
    [byId] that the loop has gone through. *)
Definition linkedUpTo (order : list string) (h : Heap) : Prop :=
  rowsOf (cells h) = R ∧
  ∀ a, readArr h a = filter (λ k, par k = parentOf a) order.

(** [AtDepth d k]: the node [k] is [d] links below a root. *)
Inductive AtDepth : nat → string → Prop :=
| at_root k : is_Some (R !! k) → par k = None → AtDepth 0 k
| at_child k p d : par k = Some p → AtDepth d p → AtDepth (S d) k.

(** The sort key of a node, which is [timeOf] in every heap over [R]. *)
Definition key (x : string) : Z :=
  match R !! x with
  | Some r => getTime (created_at r)
  | None => 0
  end.

(** Every array holds, once each, the nodes whose parent it stands for. *)
Definition Linked (h : Heap) : Prop :=
  rowsOf (cells h) = R ∧
  ∀ a, NoDup (readArr h a) ∧
       ∀ x, x ∈ readArr h a ↔ is_Some (R !! x) ∧ par x = parentOf a.

(** From [h] to [h'] arrays were only sorted: each array of [h'] is a stable
    rearrangement of what it was, and untouched if it was in order. *)
Definition Evolves (h h' : Heap) : Prop :=
  ∀ a, StableImage key (readArr h a) (readArr h' a) ∧
       (Ascending key (readArr h a) → readArr h' a = readArr h a).

(** The array [a] and all arrays below it are in order. *)
Inductive Settled (h : Heap) : ArrRef → Prop :=
| settled a :
    Ascending key (readArr h a) →
    (∀ x, x ∈ readArr h a → Settled h (RepliesOf x)) →
    Settled h a.

(** The heap after [arr.sort(...)] on the array [a]. *)
Definition afterSort (h : Heap) (a : ArrRef) : Heap :=
  writeArr h a
    (arraySort (λ x y, (timeOf getTime h x - timeOf getTime h y)%Z) (readArr h a)).

(** [Under x k j]: [x] is the ancestor of [k], [j] levels up. *)
Inductive Under : string → string → nat → Prop :=
| under_self x : Under x x 0
| under_child x y k j : par y = Some x → Under y k j → Under x k (S j).

Lemma parentRef_par (c : gmap string Cell) k n :
  rowsOf c = R → c !! k = Some n → parentRef c n = par k.
Proof.
  intros HR Hk. unfold parentRef, par. rewrite <- HR. unfold rowsOf.
  rewrite lookup_fmap, Hk. simpl.
  destruct (parent_id (cell_row n)) as [p|]; simpl; [|done].
  rewrite lookup_fmap.
  by rewrite (bool_decide_ext _ _ (fmap_is_Some cell_row (c !! p))).
Qed.

Lemma par_Some_dom k p : par k = Some p → is_Some (R !! k) ∧ is_Some (R !! p).
Proof.
  unfold par. intros H.
  destruct (R !! k) as [r|]; simpl in H; [|discriminate H].
  destruct (parent_id r) as [q|]; simpl in H; [|discriminate H].
  destruct (truthy (Some q)); simpl in H; [|discriminate H].
  case_bool_decide; [|discriminate H]. injection H as <-. eauto.
Qed.

Lemma link_step order h k :
  is_Some (R !! k) → linkedUpTo order h → linkedUpTo (order ++ [k]) (link h k).
Proof.
  intros [r Hr] [Hrows Harr]. unfold link.
  assert (∃ n, cells h !! k = Some n) as [n Hn].
  { rewrite <- Hrows in Hr. unfold rowsOf in Hr. rewrite lookup_fmap in Hr.
    destruct (cells h !! k); [eauto|done]. }
  rewrite Hn, (parentRef_par _ k n Hrows Hn).
  destruct (par k) as [p|] eqn:Hp.
  - split.
    + simpl. rewrite <- Hrows. unfold rowsOf. apply map_eq. intros i.
      rewrite !lookup_fmap. destruct (decide (p = i)) as [<-|Hne].
      * rewrite lookup_alter_eq. by destruct (cells h !! p).
      * by rewrite lookup_alter_ne.
    + intros a. rewrite filter_app, <- Harr.
      destruct a as [|q]; simpl.
      * rewrite filter_cons_False by (simpl; congruence).
        by rewrite filter_nil, app_nil_r.
      * destruct (decide (p = q)) as [<-|Hne].
        -- rewrite lookup_alter_eq, filter_cons_True by done.
           apply par_Some_dom in Hp as [_ [rp Hrp]].
           rewrite <- Hrows in Hrp. unfold rowsOf in Hrp.
           rewrite lookup_fmap in Hrp.
           destruct (cells h !! p); [done|discriminate].
        -- rewrite lookup_alter_ne by done.
           rewrite filter_cons_False by (simpl; congruence).
           by rewrite filter_nil, app_nil_r.
  - split; [done|]. intros a. rewrite filter_app, <- Harr.
    destruct a as [|q]; simpl.
    + by rewrite filter_cons_True.
    + rewrite filter_cons_False by (simpl; congruence).
      by rewrite filter_nil, app_nil_r.
Qed.

Lemma link_all order h pre :
  (∀ k, k ∈ order → is_Some (R !! k)) →
  linkedUpTo pre h → linkedUpTo (pre ++ order) (foldl link h order).
Proof.
  revert h pre. induction order as [|k order IH]; intros h pre Hdom Hh; simpl.
  - by rewrite app_nil_r.
  - rewrite (cons_middle k pre order), (assoc_L (++)). apply IH.
    + intros k' Hk'. apply Hdom. by right.
    + apply link_step; [|done]. apply Hdom. by left.
Qed.

(** *** Depth below the roots *)

Lemma AtDepth_fun d d' k : AtDepth d k → AtDepth d' k → d = d'.
Proof.
  intros H. revert d'. induction H as [k _ Hk|k p d Hk _ IH]; intros d' H'.
  - destruct H' as [|k p' d' Hk' _]; [done|congruence].
  - destruct H' as [k _ Hk'|k p' d' Hk' H']; [congruence|].
    f_equal. apply IH. congruence.
Qed.

Lemma AtDepth_dom d k : AtDepth d k → is_Some (R !! k).
Proof. intros [k' ? _|k' p d' Hp _]; [done|]. by apply par_Some_dom in Hp as []. Qed.

Lemma AtDepth_chain d k :
  AtDepth d k →
  ∃ l : list string,
    length l = S d ∧ NoDup l ∧
    ∀ x, x ∈ l → is_Some (R !! x) ∧ ∃ d', d' ≤ d ∧ AtDepth d' x.
Proof.
  induction 1 as [k Hk Hp|k p d Hp Hd (l & Hlen & Hnd & Hl)].
  - exists [k]. split; [done|]. split; [apply NoDup_singleton|].
    intros x ->%list_elem_of_singleton. split; [done|].
    exists 0. split; [done|]. by constructor.
  - exists (k :: l). split; [simpl; by rewrite Hlen|]. split.
    + constructor; [|done]. intros (_ & d' & Hle & Hd')%Hl.
      assert (S d = d') by (eapply AtDepth_fun; [by econstructor|done]). lia.
    + intros x [->|Hx]%elem_of_cons.
      * split; [by apply par_Some_dom in Hp as []|].
        exists (S d). split; [done|]. by econstructor.
      * destruct (Hl x Hx) as (? & d' & ? & ?). split; [done|].
        exists d'. split; [lia|done].
Qed.

Lemma AtDepth_bound d k : AtDepth d k → d < size R.
Proof.
  intros (l & Hlen & Hnd & Hl)%AtDepth_chain.
  rewrite <- (size_dom (D := gset string)).
  assert (length l ≤ size (dom R)); [|lia].
  rewrite <- (size_list_to_set (C := gset string) l) by done.
  apply subseteq_size. intros x Hx%elem_of_list_to_set.
  apply elem_of_dom. by apply Hl.
Qed.

(** *** The heaps [sortRec] goes through *)

Lemma timeOf_key h x : rowsOf (cells h) = R → timeOf getTime h x = key x.
Proof.
  intros HR. unfold timeOf, key. rewrite <- HR. unfold rowsOf.
  rewrite lookup_fmap. by destruct (cells h !! x).
Qed.

Lemma Settled_sorted h a : Settled h a → Ascending key (readArr h a).
Proof. by destruct 1. Qed.

Lemma Settled_below h a x :
  Settled h a → x ∈ readArr h a → Settled h (RepliesOf x).
Proof. destruct 1; auto. Qed.

Lemma Evolves_refl h : Evolves h h.
Proof. intros a. split; [apply StableImage_refl|done]. Qed.

Lemma Evolves_trans h1 h2 h3 : Evolves h1 h2 → Evolves h2 h3 → Evolves h1 h3.
Proof.
  intros H12 H23 a. destruct (H12 a) as [I12 S12], (H23 a) as [I23 S23].
  split; [by eapply StableImage_trans|].
  intros Hs. rewrite <- (S12 Hs). apply S23. by rewrite (S12 Hs).
Qed.

Lemma Linked_Evolves h h' :
  Linked h → rowsOf (cells h') = R → Evolves h h' → Linked h'.
Proof.
  intros [_ Harr] Hrows Hev. split; [done|]. intros a.
  destruct (Harr a) as [Hnd Hin], (Hev a) as [[Hperm _] _].
  split; [by rewrite <- Hperm|]. intros x. by rewrite <- Hperm.
Qed.

Lemma Settled_Evolves h h' a : Settled h a → Evolves h h' → Settled h' a.
Proof.
  intros Hs Hev. induction Hs as [a Hsorted _ IH].
  destruct (Hev a) as [_ Hsame]. constructor; rewrite (Hsame Hsorted); auto.
Qed.

Lemma rowsOf_writeArr h a l : rowsOf (cells (writeArr h a l)) = rowsOf (cells h).
Proof.
  destruct a as [|k]; simpl; [done|]. unfold rowsOf. apply map_eq. intros i.
  rewrite !lookup_fmap. destruct (decide (k = i)) as [<-|Hne].
  - rewrite lookup_alter_eq. by destruct (cells h !! k).
  - by rewrite lookup_alter_ne.
Qed.

Lemma readArr_writeArr_ne h a a' l :
  a ≠ a' → readArr (writeArr h a l) a' = readArr h a'.
Proof.
  intros Hne. destruct a as [|k], a' as [|k']; simpl; try done.
  rewrite lookup_alter_ne; [done|congruence].
Qed.

Lemma readArr_writeArr_sort h a cmp :
  readArr (writeArr h a (arraySort cmp (readArr h a))) a
  = arraySort cmp (readArr h a).
Proof.
  destruct a as [|k]; simpl; [done|]. rewrite lookup_alter_eq.
  by destruct (cells h !! k).
Qed.

Lemma readArr_afterSort h a :
  rowsOf (cells h) = R →
  readArr (afterSort h a) a = arraySort (byKey key) (readArr h a).
Proof.
  intros Hrows. unfold afterSort. rewrite readArr_writeArr_sort.
  apply arraySort_ext. intros x y. unfold byKey. by rewrite !timeOf_key.
Qed.

Lemma afterSort_Evolves h a : rowsOf (cells h) = R → Evolves h (afterSort h a).
Proof.
  intros Hrows a'. destruct (decide (a = a')) as [<-|Hne].
  - rewrite readArr_afterSort by done. split.
    + apply arraySort_StableImage.
    + apply arraySort_Ascending_id.
  - unfold afterSort. rewrite readArr_writeArr_ne by done.
    split; [apply StableImage_refl|done].
Qed.

Lemma Linked_child h x y d :
  Linked h → AtDepth d x → y ∈ readArr h (RepliesOf x) → AtDepth (S d) y.
Proof.
  intros [_ Harr] Hx Hy. apply (Harr (RepliesOf x)) in Hy as [_ Hp].
  by econstructor.
Qed.

Lemma forEach_sortRec fuel d :
  (∀ h a, Linked h → (∀ x, x ∈ readArr h a → AtDepth (S d) x) →
          S d ≤ size R →
          ∃ h', sortRec getTime fuel h a = Some h' ∧
                Linked h' ∧ Evolves h h' ∧ Settled h' a) →
  ∀ arr h, Linked h → (∀ x, x ∈ arr → AtDepth d x) →
    ∃ h', forEach (λ h x, sortRec getTime fuel h (RepliesOf x)) arr h = Some h' ∧
          Linked h' ∧ Evolves h h' ∧ ∀ x, x ∈ arr → Settled h' (RepliesOf x).
Proof.
  intros Hrec arr. induction arr as [|x arr IH]; intros h Hh Harr; simpl.
  - exists h. split; [done|]. split; [done|]. split; [apply Evolves_refl|].
    by intros x ?%elem_of_nil.
  - assert (Hx : AtDepth d x) by (apply Harr; by left).
    destruct (Hrec h (RepliesOf x) Hh) as (h1 & -> & Hh1 & Hev1 & Hs1).
    { intros y Hy. by eapply Linked_child. }
    { by apply AtDepth_bound in Hx. }
    simpl. destruct (IH h1 Hh1) as (h2 & -> & Hh2 & Hev2 & Hs2).
    { intros y Hy. apply Harr. by right. }
    exists h2. split; [done|]. split; [done|].
    split; [by eapply Evolves_trans|].
    intros y [->|Hy]%elem_of_cons; [|by apply Hs2].
    by eapply Settled_Evolves.
Qed.

Lemma sortRec_spec fuel :
  ∀ d h a, Linked h → (∀ x, x ∈ readArr h a → AtDepth d x) →
    size R + 1 ≤ d + fuel → d ≤ size R →
    ∃ h', sortRec getTime fuel h a = Some h' ∧
          Linked h' ∧ Evolves h h' ∧ Settled h' a.
Proof.
  induction fuel as [|fuel IH]; intros d h a Hh Harr Hfuel Hd; [lia|].
  simpl. fold (afterSort h a).
  assert (Hev1 : Evolves h (afterSort h a)) by (apply afterSort_Evolves, Hh).
  assert (Hh1 : Linked (afterSort h a)).
  { eapply Linked_Evolves; [done| |done].
    unfold afterSort. rewrite rowsOf_writeArr. apply Hh. }
  assert (Hsorted : Ascending key (readArr (afterSort h a) a)).
  { rewrite readArr_afterSort by apply Hh. apply arraySort_Ascending. }
  destruct (forEach_sortRec fuel d) with (arr := readArr (afterSort h a) a)
    (h := afterSort h a) as (h2 & Hrun & Hh2 & Hev2 & Hs2); [|done| |].
  - intros h0 a0 Hh0 Harr0 Hd0. apply (IH (S d)); [done..|lia|done].
  - intros x Hx. apply Harr. destruct (Hev1 a) as [[Hperm _] _].
    by rewrite Hperm.
  - exists h2. split; [done|]. split; [done|].
    split; [by eapply Evolves_trans|].
    destruct (Hev2 a) as [_ Hsame]. constructor; rewrite (Hsame Hsorted); auto.
Qed.

(** *** Descent *)

Lemma Under_zero x k : Under x k 0 → x = k.
Proof. by inversion 1. Qed.

Lemma Under_depth x k j d : Under x k j → AtDepth d x → AtDepth (d + j) k.
Proof.
  intros H. revert d. induction H as [x|x y k j Hp _ IH]; intros d Hd.
  - by rewrite Nat.add_0_r.
  - rewrite Nat.add_succ_r. apply (IH (S d)). by econstructor.
Qed.

Lemma Under_snoc x p k j : Under x p j → par k = Some p → Under x k (S j).
Proof.
  induction 1 as [x|x y p j Hp _ IH]; intros Hk.
  - econstructor; [done|constructor].
  - econstructor; [done|]. by apply IH.
Qed.

Lemma Under_fun_level x x' k j : Under x k j → Under x' k j → x = x'.
Proof.
  intros H. revert x'. induction H as [x|x y k j Hp _ IH]; intros x' H'.
  - by inversion H'.
  - inversion H' as [|x0 y' k0 j0 Hp' Hy']; subst.
    apply IH in Hy' as <-. congruence.
Qed.

Lemma Under_fun x x' k j j' d :
  AtDepth d x → AtDepth d x' → Under x k j → Under x' k j' → x = x'.
Proof.
  intros Hx Hx' Hu Hu'.
  assert (d + j = d + j') as Hj.
  { eapply AtDepth_fun; by eapply Under_depth. }
  assert (j = j') as <- by lia. by eapply Under_fun_level.
Qed.

Lemma AtDepth_Under d k : AtDepth d k → ∃ x, AtDepth 0 x ∧ Under x k d.
Proof.
  induction 1 as [k Hk Hp|k p d Hp _ (x & Hx & Hu)].
  - exists k. split; [by constructor|constructor].
  - exists x. split; [done|]. by eapply Under_snoc.
Qed.

(** *** Reading a settled heap *)

Section Read.

Variable h : Heap.
Hypothesis h_linked : Linked h.

Variable P : list Row → Prop.
Hypothesis P_sorted :
  ∀ a s, Ascending key (readArr h a) → id <$> s = readArr h a →
         Forall (λ r, R !! id r = Some r) s → P s.

Definition Reads (arr : list string) (forest : list Node) : Prop :=
  id <$> (row <$> forest) = arr ∧
  Forall (λ r, R !! id r = Some r) (row <$> forest) ∧
  Forall (λ r, R !! id r = Some r) (flattenAll forest) ∧
  Forall (λ n, EverySiblings P (replies n)) forest ∧
  (∀ k, k ∈ id <$> flattenAll forest ↔ ∃ x j, x ∈ arr ∧ Under x k j) ∧
  (∀ d, NoDup arr → (∀ x, x ∈ arr → AtDepth d x) →
        NoDup (id <$> flattenAll forest)).

Lemma Reads_nil : Reads [] [].
Proof.
  repeat split; try done; try constructor.
  - by intros ?%elem_of_nil.
  - by intros (x & j & ?%elem_of_nil & _).
Qed.

Lemma Reads_cons d x arr c kids forest :
  AtDepth d x → Settled h (RepliesOf x) →
  cells h !! x = Some c →
  Reads (cell_replies c) kids → Reads arr forest →
  Reads (x :: arr) ({| row := cell_row c; replies := kids |} :: forest).
Proof.
  intros Hx Hs Hc (Kid & Krows & Kall & Ksib & Kin & Knd)
         (Fid & Frows & Fall & Fsib & Fin & Fnd).
  destruct h_linked as [Hrows Harr].
  assert (Hreplies : readArr h (RepliesOf x) = cell_replies c)
    by (simpl; by rewrite Hc).
  assert (Hrow : R !! x = Some (cell_row c)).
  { rewrite <- Hrows. unfold rowsOf. by rewrite lookup_fmap, Hc. }
  assert (Hid : id (cell_row c) = x) by by apply R_keyed.
  assert (Hkid_desc : ∀ y, y ∈ cell_replies c ↔ par y = Some x).
  { intros y. rewrite <- Hreplies.
    destruct (Harr (RepliesOf x)) as [_ Hin]. rewrite Hin. simpl.
    split; [by intros []|]. intros Hp. split; [|done].
    by apply par_Some_dom in Hp as []. }
  unfold Reads. rewrite flattenAll_cons, !fmap_cons. simpl row.
  rewrite Hid, Fid. split; [done|].
  split; [constructor; [by rewrite Hid|done]|].
  split; [constructor; [by rewrite Hid|]; by apply Forall_app|].
  split.
  { constructor; [|done]. simpl. constructor; [|done].
    apply (P_sorted (RepliesOf x));
      [by apply Settled_sorted|by rewrite Hreplies|done]. }
  assert (Hmem : ∀ k, k ∈ x :: (id <$> flattenAll kids ++ flattenAll forest)
                   ↔ ∃ x' j, x' ∈ x :: arr ∧ Under x' k j).
  { intros k. rewrite elem_of_cons, fmap_app, elem_of_app, Kin, Fin. split.
    - intros [->|[(y & j & Hy & Hu)|(x' & j & Hx' & Hu)]].
      + exists x, 0. split; [by left|constructor].
      + exists x, (S j). split; [by left|].
        econstructor; [|done]. by apply Hkid_desc.
      + exists x', j. split; [by right|done].
    - intros (x' & j & [->|Hx']%elem_of_cons & Hu).
      + inversion Hu as [|x0 y k0 j0 Hp Hy]; subst; [by left|].
        right. left. exists y, j0. split; [by apply Hkid_desc|done].
      + right. right. by exists x', j. }
  split; [done|].
  intros d' [Hxarr Hnd]%NoDup_cons Hdepth.
  assert (d' = d) as ->.
  { eapply AtDepth_fun; [|done]. apply Hdepth. by left. }
  assert (Hkids_depth : ∀ y, y ∈ cell_replies c → AtDepth (S d) y).
  { intros y Hy%Hkid_desc. by econstructor. }
  constructor.
  - rewrite fmap_app, elem_of_app, Kin, Fin.
    intros [(y & j & Hy & Hu)|(x' & j & Hx' & Hu)].
    + assert (S d + j = d); [|lia].
      eapply (AtDepth_fun _ _ x); [|exact Hx].
      eapply Under_depth; [exact Hu|auto].
    + assert (Hx'd : AtDepth d x') by (apply Hdepth; by right).
      assert (d + j = d) as Hj.
      { eapply (AtDepth_fun _ _ x); [|exact Hx].
        eapply Under_depth; [exact Hu|exact Hx'd]. }
      assert (j = 0) as -> by lia. apply Under_zero in Hu as ->.
      by apply Hxarr.
  - rewrite fmap_app. apply NoDup_app. split; [|split].
    + apply (Knd (S d)); [|done]. rewrite <- Hreplies.
      by destruct (Harr (RepliesOf x)).
    + intros k (y & j & Hy & Hu)%Kin (x' & j' & Hx' & Hu')%Fin.
      assert (x = x') as Heq; [|apply Hxarr; by rewrite Heq].
      eapply (Under_fun _ _ k (S j) j' d); [done| | |done].
      * apply Hdepth. by right.
      * econstructor; [|done]. by apply Hkid_desc.
    + apply (Fnd d); [done|]. intros x' Hx'. apply Hdepth. by right.
Qed.

Lemma readNodes_spec fuel :
  ∀ d arr,
    (∀ x, x ∈ arr → AtDepth d x ∧ Settled h (RepliesOf x)) →
    size R + 1 ≤ d + fuel → d ≤ size R →
    ∃ forest, readNodes fuel h arr = Some forest ∧ Reads arr forest.
Proof.
  induction fuel as [|fuel IH]; intros d arr Harr Hfuel Hd; [lia|].
  simpl. induction arr as [|x arr IHarr]; simpl.
  - exists []. split; [done|apply Reads_nil].
  - destruct (Harr x) as [Hx Hs]; [by left|].
    destruct (AtDepth_dom _ _ Hx) as [r Hr].
    destruct h_linked as [Hrows Hlinked].
    assert (∃ c, cells h !! x = Some c) as [c Hc].
    { rewrite <- Hrows in Hr. unfold rowsOf in Hr. rewrite lookup_fmap in Hr.
      destruct (cells h !! x); [eauto|done]. }
    assert (Hreplies : readArr h (RepliesOf x) = cell_replies c)
      by (simpl; by rewrite Hc).
    destruct (IH (S d) (cell_replies c)) as (kids & Hkids & Kreads).
    { intros y Hy. rewrite <- Hreplies in Hy. split.
      - by eapply Linked_child.
      - by eapply Settled_below. }
    { lia. }
    { by apply AtDepth_bound in Hx. }
    destruct IHarr as (forest & Hforest & Freads).
    { intros y Hy. apply Harr. by right. }
    rewrite Hc. simpl. rewrite Hkids. simpl. rewrite Hforest. simpl.
    eexists. split; [done|]. by eapply Reads_cons.
Qed.

End Read.

End Static.

(** ** The run of [buildTree] *)

Lemma filter_fmap_id (Q : string → Prop) `{!∀ k, Decision (Q k)} (l : list Row) :
  filter Q (id <$> l) = id <$> filter (λ r, Q (id r)) l.
Proof.
  induction l as [|r l IH]; [done|].
  rewrite fmap_cons, !filter_cons, IH. by destruct (decide (Q (id r))).
Qed.

Lemma rows_by_id (R : gmap string Row) (l : list Row) :
  Forall (λ r, R !! id r = Some r) l → omap (λ k, R !! k) (id <$> l) = l.
Proof.
  induction 1 as [|r l Hr _ IH]; [done|].
  rewrite fmap_cons. cbn [omap list_omap]. by rewrite Hr, IH.
Qed.

Lemma rows_by_id_Permutation (R : gmap string Row) (l1 l2 : list Row) :
  Forall (λ r, R !! id r = Some r) l1 →
  Forall (λ r, R !! id r = Some r) l2 →
  id <$> l1 ≡ₚ id <$> l2 → l1 ≡ₚ l2.
Proof.
  intros H1 H2 Hperm.
  rewrite <- (rows_by_id R l1 H1), <- (rows_by_id R l2 H2). by rewrite Hperm.
Qed.

Section Built.

Variable getTime : string → Z.
Variable rows : list Row.

Local Abbreviation order := (newMap rows).1.
Local Abbreviation R := (rowsOf (newMap rows).2).
Local Abbreviation h0 :=
  (foldl link {| cells := (newMap rows).2; roots := [] |} (newMap rows).1).

Hypothesis unique_ids : NoDup (id <$> rows).

Lemma byId_keyed k r : R !! k = Some r → id r = k.
Proof.
  unfold rowsOf. rewrite lookup_fmap.
  destruct ((newMap rows).2 !! k) as [c|] eqn:Hc; [|done].
  intros [= <-]. by apply newMap_inv in Hc as (_ & ? & _).
Qed.

Lemma R_dom k : is_Some (R !! k) ↔ k ∈ order.
Proof.
  destruct (newMap_inv rows) as (_ & Hdom & _).
  unfold rowsOf. by rewrite lookup_fmap, fmap_is_Some, Hdom.
Qed.

Lemma size_R : size R ≤ length rows.
Proof.
  destruct (newMap_inv rows) as (Hnd & _ & Hids & _).
  transitivity (length order).
  - rewrite <- (size_dom (D := gset string)).
    rewrite <- (size_list_to_set (C := gset string) order) by done.
    apply subseteq_size. intros k Hk%elem_of_dom.
    apply elem_of_list_to_set. by apply R_dom.
  - rewrite <- (length_fmap id rows). apply submseteq_length.
    apply NoDup_submseteq; [done|]. intros k. by rewrite Hids.
Qed.

Lemma h0_linkedUpTo : linkedUpTo R order h0.
Proof.
  apply (link_all R order _ []).
  - intros k. by rewrite R_dom.
  - split; [done|]. intros a. rewrite filter_nil. destruct a as [|p]; [done|].
    simpl. destruct ((newMap rows).2 !! p) as [c|] eqn:Hc; [|done].
    apply newMap_inv in Hc as (Hrep & _). simpl. by rewrite Hrep.
Qed.

Lemma h0_Linked : Linked R h0.
Proof.
  destruct h0_linkedUpTo as [Hrows Harr], (newMap_inv rows) as (Hnd & _).
  split; [done|]. intros a. rewrite Harr. split; [by apply NoDup_filter|].
  intros x. rewrite list_elem_of_filter, R_dom. tauto.
Qed.

Lemma roots_depth h x : Linked R h → x ∈ roots h → AtDepth R 0 x.
Proof.
  intros [_ Harr] Hx. apply (Harr Roots) in Hx as [? ?]. by constructor.
Qed.

Lemma build_run (P : list Row → Prop) :
  (∀ h a s, Evolves getTime R h0 h →
            Ascending (key getTime R) (readArr h a) →
            id <$> s = readArr h a →
            Forall (λ r, R !! id r = Some r) s → P s) →
  ∃ h forest,
    buildTree getTime rows = Some forest ∧
    Linked R h ∧ Evolves getTime R h0 h ∧
    Reads R P (roots h) forest ∧ EverySiblings P forest.
Proof.
  intros HP. unfold buildTree. pose proof size_R as Hsize.
  destruct (sortRec_spec getTime R (S (length rows)) 0 h0 Roots)
    as (h & -> & Hh & Hev & Hs); [apply h0_Linked| |lia..|].
  { intros x. apply roots_depth, h0_Linked. }
  simpl.
  destruct (readNodes_spec getTime R byId_keyed h Hh P (λ a s, HP h a s Hev)
              (S (length rows)) 0 (roots h))
    as (forest & Hread & Hreads); [|lia..|].
  { intros x Hx. split; [by eapply roots_depth|].
    by apply (Settled_below getTime R h Roots). }
  exists h, forest. split; [done|]. split; [done|]. split; [done|].
  split; [done|]. destruct Hreads as (Hid & Hgood & _ & Hsib & _).
  constructor; [|done].
  apply (HP h Roots); [done|by apply Settled_sorted|done..].
Qed.

(** *** Collections with unique identifiers *)

Lemma rows_good : Forall (λ r, R !! id r = Some r) rows.
Proof using unique_ids.
  apply Forall_forall. intros r Hr.
  destruct (newMap_unique_ids rows unique_ids) as [_ Hcells].
  unfold rowsOf. by rewrite lookup_fmap, (Hcells r Hr).
Qed.

Lemma order_ids : order = id <$> rows.
Proof using unique_ids. by apply newMap_unique_ids. Qed.

Lemma key_time r :
  R !! id r = Some r → key getTime R (id r) = getTime (created_at r).
Proof. unfold key. by intros ->. Qed.

Lemma filter_key_time t (l : list Row) :
  Forall (λ r, R !! id r = Some r) l →
  filter (λ r, key getTime R (id r) = t) l
  = filter (λ r, getTime (created_at r) = t) l.
Proof.
  induction 1 as [|r l Hr _ IH]; [done|].
  rewrite !filter_cons, IH, (key_time r Hr). done.
Qed.

Lemma Forall_filter_good (Q : Row → Prop) `{!∀ r, Decision (Q r)} (l : list Row) :
  Forall (λ r, R !! id r = Some r) l →
  Forall (λ r, R !! id r = Some r) (filter Q l).
Proof.
  rewrite !Forall_forall. intros Hl r [_ Hr]%list_elem_of_filter. auto.
Qed.

Lemma good_inj (l1 l2 : list Row) :
  Forall (λ r, R !! id r = Some r) l1 →
  Forall (λ r, R !! id r = Some r) l2 →
  id <$> l1 = id <$> l2 → l1 = l2.
Proof.
  intros H1 H2 Heq.
  by rewrite <- (rows_by_id R l1 H1), <- (rows_by_id R l2 H2), Heq.
Qed.

Lemma rows_Ascending (s : list Row) :
  Forall (λ r, R !! id r = Some r) s →
  Ascending (key getTime R) (id <$> s) →
  StronglySorted (λ r r', (getTime (created_at r) ≤ getTime (created_at r'))%Z) s.
Proof.
  unfold Ascending. induction 1 as [|r s Hr Hs IH]; [constructor|].
  rewrite fmap_cons. intros [Hsorted Hle]%StronglySorted_inv.
  constructor; [auto|].
  rewrite Forall_fmap in Hle. rewrite Forall_forall in Hle, Hs.
  apply Forall_forall. intros r' Hr'.
  specialize (Hle r' Hr'). simpl in Hle.
  by rewrite (key_time r Hr), (key_time r' (Hs r' Hr')) in Hle.
Qed.

Lemma sorted_Chronological h a s :
  Evolves getTime R h0 h →
  Ascending (key getTime R) (readArr h a) →
  id <$> s = readArr h a →
  Forall (λ r, R !! id r = Some r) s → Chronological getTime rows s.
Proof using unique_ids.
  intros Hev Hasc Hid Hgood. split.
  - apply rows_Ascending; [done|]. by rewrite Hid.
  - intros t.
    set (Q := λ r : Row, par R (id r) = parentOf a).
    assert (filter (λ r, getTime (created_at r) = t) s
            = filter (λ r, getTime (created_at r) = t) (filter Q rows)) as ->.
    { apply good_inj.
      - by apply Forall_filter_good.
      - apply Forall_filter_good, Forall_filter_good, rows_good.
      - rewrite <- (filter_key_time t s Hgood).
        rewrite <- (filter_key_time t (filter Q rows))
          by apply Forall_filter_good, rows_good.
        pose proof (filter_fmap_id (λ k, key getTime R k = t) s) as E1.
        pose proof (filter_fmap_id (λ k, key getTime R k = t) (filter Q rows)) as E2.
        pose proof (filter_fmap_id (λ k, par R k = parentOf a) rows) as E3.
        simpl in E1, E2, E3. fold Q in E3.
        rewrite <- E1, <- E2, <- E3, Hid.
        destruct (Hev a) as [[_ ->] _].
        destruct h0_linkedUpTo as [_ ->]. by rewrite order_ids. }
    etrans; apply sublist_filter.
Qed.

Lemma built_Chronological :
  ∃ forest, buildTree getTime rows = Some forest ∧
            EverySiblings (Chronological getTime rows) forest.
Proof using unique_ids.
  destruct (build_run (Chronological getTime rows)) as (h & forest & Hrun & _ & _ & _ & Hsib).
  - intros h a s. apply sorted_Chronological.
  - by exists forest.
Qed.

(** *** Collections without parent cycles *)

Lemma R_lookupRow k : R !! k = lookupRow rows k.
Proof using unique_ids.
  unfold lookupRow. destruct (find _ rows) as [r|] eqn:Hfind.
  - apply find_some in Hfind as [Hin <-%String.eqb_eq].
    apply list_elem_of_In in Hin.
    pose proof rows_good as Hgood. rewrite Forall_forall in Hgood. auto.
  - apply eq_None_not_Some. rewrite R_dom, order_ids.
    intros (r & -> & Hin)%list_elem_of_fmap.
    apply list_elem_of_In in Hin.
    apply (find_none _ _ Hfind) in Hin. by rewrite String.eqb_refl in Hin.
Qed.

Lemma par_parentIn r : r ∈ rows → par R (id r) = id <$> parentIn rows r.
Proof using unique_ids.
  intros Hr. pose proof rows_good as Hgood. rewrite Forall_forall in Hgood.
  unfold par, parentIn, parentLink. rewrite (Hgood r Hr). simpl.
  destruct (parent_id r) as [p|]; simpl.
  - destruct (truthy (Some p)); simpl; [|done].
    rewrite <- R_lookupRow. destruct (R !! p) as [q|] eqn:Hq; simpl.
    + by rewrite (byId_keyed p q Hq).
    + done.
  - by destruct (truthy None).
Qed.

Lemma parentIn_rows r q : parentIn rows r = Some q → q ∈ rows.
Proof.
  unfold parentIn. destruct (parentLink r) as [p|]; simpl; [|done].
  intros [Hin _]%find_some. by apply list_elem_of_In.
Qed.

Lemma climbs_AtDepth fuel r :
  r ∈ rows → climbs fuel rows r = true → ∃ d, AtDepth R d (id r).
Proof using unique_ids.
  revert r. induction fuel as [|fuel IH]; intros r Hr; simpl; [done|].
  pose proof (par_parentIn r Hr) as Hpar.
  destruct (parentIn rows r) as [q|] eqn:Hq.
  - intros Hclimb. destruct (IH q) as [d Hd]; [by eapply parentIn_rows|done|].
    exists (S d). by econstructor.
  - intros _. exists 0. constructor; [|done].
    apply R_dom. rewrite order_ids. by apply list_elem_of_fmap_2.
Qed.

Lemma Under_dom x k j : Under R x k j → is_Some (R !! x) → is_Some (R !! k).
Proof.
  induction 1 as [|x y k j Hp _ IH]; [done|]. intros _. apply IH.
  by apply par_Some_dom in Hp as [].
Qed.

Lemma built_once :
  acyclic rows = true →
  ∃ forest, buildTree getTime rows = Some forest ∧
            flattenAll forest ≡ₚ rows ∧
            ∀ r p, r ∈ rows → parent_id r = Some p → p ∉ id <$> rows →
                   r ∈ row <$> forest.
Proof using unique_ids.
  intros Hacyclic.
  destruct (build_run (λ _, True)) as (h & forest & Hrun & Hh & _ & Hreads & _);
    [done|].
  destruct Hreads as (Hid & Hroots & Hgood & _ & Hin & Hnd).
  destruct Hh as [Hrows Harr].
  assert (Hroot : ∀ x, x ∈ roots h ↔ AtDepth R 0 x).
  { intros x. rewrite (proj2 (Harr Roots) x). simpl. split.
    - intros []. by constructor.
    - by inversion 1. }
  exists forest. split; [done|]. split.
  - apply (rows_by_id_Permutation R); [done|apply rows_good|].
    rewrite <- order_ids. apply NoDup_Permutation.
    + apply (Hnd 0); [apply (Harr Roots)|]. intros x. by rewrite Hroot.
    + apply newMap_inv.
    + intros k. rewrite Hin, <- R_dom. split.
      * intros (x & j & Hx & Hu). apply (Under_dom x k j Hu).
        by apply Hroot, AtDepth_dom in Hx.
      * rewrite R_dom, order_ids.
        intros (r & -> & Hr)%list_elem_of_fmap.
        destruct (climbs_AtDepth (length rows) r Hr) as [d Hd].
        { unfold acyclic in Hacyclic. rewrite forallb_forall in Hacyclic.
          apply Hacyclic. by apply list_elem_of_In. }
        apply AtDepth_Under in Hd as (x & Hx & Hu).
        exists x, d. split; [by apply Hroot|done].
  - intros r p Hr Hp Habsent.
    pose proof rows_good as Hgood_rows. rewrite Forall_forall in Hgood_rows.
    assert (Hx : id r ∈ roots h).
    { apply Hroot. constructor; [rewrite (Hgood_rows r Hr); eauto|].
      rewrite (par_parentIn r Hr). unfold parentIn, parentLink. rewrite Hp.
      destruct (truthy (Some p)); simpl; [|done].
      rewrite <- R_lookupRow.
      destruct (R !! p) as [q|] eqn:Hq; [|done].
      destruct Habsent. rewrite <- order_ids. apply R_dom. eauto. }
    rewrite <- Hid in Hx. apply list_elem_of_fmap in Hx as (r' & Heq & Hr').
    rewrite Forall_forall in Hroots. specialize (Hroots r' Hr').
    rewrite <- Heq, (Hgood_rows r Hr) in Hroots. by injection Hroots as ->.
Qed.

End Built.

(** ** Siblings and their parent *)

Lemma filter_ext_in {A} (P Q : A → Prop) `{!∀ x, Decision (P x)}
    `{!∀ x, Decision (Q x)} (l : list A) :
  (∀ x, x ∈ l → (P x ↔ Q x)) → filter P l = filter Q l.
Proof.
  induction l as [|x l IH]; intros Hext; [done|].
  rewrite !filter_cons.
  assert (filter P l = filter Q l) as ->
    by (apply IH; intros y Hy; apply Hext; by right).
  destruct (decide (P x)) as [HP|HP], (decide (Q x)) as [HQ|HQ]; try done;
    destruct (Hext x); try apply list_elem_of_here; tauto.
Qed.

Lemma readNodes_Family (getTime : string → Z) (R : gmap string Row) (h : Heap)
    (Q : option string → list Row → Prop) :
  (∀ k r, R !! k = Some r → id r = k) →
  rowsOf (cells h) = R →
  (∀ a s, Settled getTime R h a → id <$> s = readArr h a →
          Forall (λ r, R !! id r = Some r) s → Q (parentOf a) s) →
  ∀ fuel a forest,
    Settled getTime R h a →
    readNodes fuel h (readArr h a) = Some forest → Family Q (parentOf a) forest.
Proof.
  intros Hkeyed Hrows HQ. induction fuel as [|fuel IH]; intros a forest Hs H; [done|].
  simpl in H. apply mapM_Some in H.
  assert (Hbelow : ∀ x, x ∈ readArr h a → Settled getTime R h (RepliesOf x))
    by (intros x Hx; by eapply Settled_below).
  assert (id <$> (row <$> forest) = readArr h a ∧
          Forall (λ r, R !! id r = Some r) (row <$> forest) ∧
          Forall (λ n, Family Q (Some (id (row n))) (replies n)) forest)
    as (Hids & Hgood & Hkids).
  { revert H Hbelow. generalize (readArr h a). intros arr0 H Hbelow.
    induction H as [|x n arr forest Hx _ IHf]; [done|].
    destruct IHf as (IH1 & IH2 & IH3); [intros y Hy; apply Hbelow; by right|].
    destruct (cells h !! x) as [c|] eqn:Hc; [|done]. simpl in Hx.
    destruct (readNodes fuel h (cell_replies c)) as [kids|] eqn:Hk; [|done].
    injection Hx as <-. rewrite !fmap_cons. cbn [row replies].
    assert (Hr : R !! x = Some (cell_row c))
      by (rewrite <- Hrows; unfold rowsOf; by rewrite lookup_fmap, Hc).
    pose proof (Hkeyed _ _ Hr) as Hid.
    split; [by rewrite Hid, IH1|]. split; [constructor; [by rewrite Hid|done]|].
    constructor; [|done]. cbn [row replies]. rewrite Hid.
    apply (IH (RepliesOf x)); [apply Hbelow; by left|]. simpl. by rewrite Hc. }
  constructor; [|done]. by apply HQ.
Qed.

(** The heap [buildTree] reads its result from. *)
Lemma buildTree_heap (getTime : string → Z) (rows : list Row) :
  ∃ h forest,
    buildTree getTime rows = Some forest ∧
    readNodes (S (length rows)) h (readArr h Roots) = Some forest ∧
    Linked (rowsOf (newMap rows).2) h ∧
    Evolves getTime (rowsOf (newMap rows).2)
      (foldl link {| cells := (newMap rows).2; roots := [] |} (newMap rows).1) h ∧
    Settled getTime (rowsOf (newMap rows).2) h Roots.
Proof.
  destruct (build_run getTime rows (λ _, True)) as (_ & forest & Hrun & _); [done|].
  pose proof (size_R rows) as Hsize.
  destruct (sortRec_spec getTime (rowsOf (newMap rows).2) (S (length rows)) 0
              (foldl link {| cells := (newMap rows).2; roots := [] |} (newMap rows).1)
              Roots (h0_Linked getTime rows))
    as (h & Hsort & Hlinked & Hev & Hset).
  { intros x Hx. eapply roots_depth; [|exact Hx]. apply (h0_Linked getTime). }
  { lia. }
  { lia. }
  exists h, forest. split; [done|]. split; [|done].
  unfold buildTree in Hrun. rewrite Hsort in Hrun. exact Hrun.
Qed.

(** The siblings read from a settled array are the stable sort of the
    records of the collection whose parent the array stands for. *)
Lemma siblings_stable_sort (getTime : string → Z) (rows : list Row)
    (h : Heap) (a : ArrRef) (s : list Row) :
  NoDup (id <$> rows) →
  Evolves getTime (rowsOf (newMap rows).2)
    (foldl link {| cells := (newMap rows).2; roots := [] |} (newMap rows).1) h →
  Settled getTime (rowsOf (newMap rows).2) h a →
  id <$> s = readArr h a →
  Forall (λ r, rowsOf (newMap rows).2 !! id r = Some r) s →
  StableSortOf getTime (repliesTo rows (parentOf a)) s.
Proof.
  intros Hnd Hev Hset Hids Hgood. unfold repliesTo.
  set (l := filter (λ r, par (rowsOf (newMap rows).2) (id r) = parentOf a) rows).
  assert (Hl : Forall (λ r, rowsOf (newMap rows).2 !! id r = Some r) l)
    by (apply Forall_filter_good, rows_good, Hnd).
  assert (H0 : readArr (foldl link {| cells := (newMap rows).2; roots := [] |}
                          (newMap rows).1) a = id <$> l).
  { destruct (h0_linkedUpTo rows) as [_ ->]. rewrite order_ids by done.
    pose proof (filter_fmap_id
                  (λ k, par (rowsOf (newMap rows).2) k = parentOf a) rows) as E.
    simpl in E. by rewrite E. }
  replace (filter (λ r, parentKey rows r = parentOf a) rows) with l.
  2: { apply filter_ext_in. intros r Hr. unfold parentKey.
       by rewrite (par_parentIn rows Hnd r Hr). }
  destruct (Hev a) as [[Hperm Hfilt] _]. rewrite H0 in Hperm, Hfilt.
  split; [|split].
  - apply (rows_by_id_Permutation (rowsOf (newMap rows).2)); [done..|].
    by rewrite Hids.
  - apply (rows_Ascending getTime rows); [done|]. rewrite Hids.
    by apply Settled_sorted.
  - intros t. apply (good_inj rows).
    + by apply Forall_filter_good.
    + by apply Forall_filter_good.
    + rewrite <- (filter_key_time getTime rows t s Hgood).
      rewrite <- (filter_key_time getTime rows t l Hl).
      pose proof (filter_fmap_id
                    (λ k, key getTime (rowsOf (newMap rows).2) k = t) s) as E1.
      pose proof (filter_fmap_id
                    (λ k, key getTime (rowsOf (newMap rows).2) k = t) l) as E2.
      simpl in E1, E2. by rewrite <- E1, <- E2, Hids, Hfilt.
Qed.

Lemma Ascending_filters_unique {A} (key : A → Z) (s s' : list A) :
  Ascending key s → Ascending key s' →
  (∀ t, filter (λ x, key x = t) s = filter (λ x, key x = t) s') → s = s'.
Proof.
  unfold Ascending. intros Hs. revert s'.
  induction Hs as [|x s1 _ IH Hx]; intros s' Hs' Hf.
  - destruct s' as [|y s1']; [done|].
    specialize (Hf (key y)). rewrite filter_nil, filter_cons_True in Hf by done.
    discriminate Hf.
  - destruct Hs' as [|y s1' Hs1' Hy].
    { specialize (Hf (key x)). rewrite filter_nil, filter_cons_True in Hf by done.
      discriminate Hf. }
    assert (x ∈ y :: s1') as Hxin.
    { assert (x ∈ filter (λ z, key z = key x) (y :: s1')) as [_ ?]%list_elem_of_filter;
        [|done].
      rewrite <- Hf, filter_cons_True by done. apply list_elem_of_here. }
    assert (y ∈ x :: s1) as Hyin.
    { assert (y ∈ filter (λ z, key z = key y) (x :: s1)) as [_ ?]%list_elem_of_filter;
        [|done].
      rewrite Hf, filter_cons_True by done. apply list_elem_of_here. }
    assert (key x = key y) as Hk.
    { apply Z.le_antisymm.
      - apply elem_of_cons in Hyin as [->|Hyin]; [lia|].
        by apply (proj1 (Forall_forall _ _) Hx).
      - apply elem_of_cons in Hxin as [->|Hxin]; [lia|].
        by apply (proj1 (Forall_forall _ _) Hy). }
    pose proof (Hf (key x)) as Hhead.
    rewrite filter_cons_True in Hhead by done.
    rewrite (filter_cons_True _ y) in Hhead by done.
    injection Hhead as <- Htail. f_equal. apply IH; [done|].
    intros t. destruct (decide (key x = t)) as [<-|Hne]; [done|].
    specialize (Hf t). by rewrite !filter_cons_False in Hf.
Qed.

(** The stable sort of a list is the list that [arraySort] computes. *)
Lemma StableSortOf_arraySort (getTime : string → Z) (l s : list Row) :
  StableSortOf getTime l s →
  s = arraySort (byKey (λ r, getTime (created_at r))) l.
Proof.
  intros (_ & Hsorted & Hfilter).
  apply (Ascending_filters_unique (λ r, getTime (created_at r))); [done| |].
  - apply arraySort_Ascending.
  - intros t. by rewrite Hfilter, arraySort_filter.
Qed.

Lemma Family_inv Q parent forest :
  Family Q parent forest →
  Q parent (row <$> forest) ∧
  Forall (λ n, Family Q (Some (id (row n))) (replies n)) forest.
Proof. by inversion 1. Qed.

Lemma fmap_row_nil (forest : list Node) : row <$> forest = [] → forest = [].
Proof. by destruct forest. Qed.

Lemma leaves_pinned (forest : list Node) :
  Forall (λ n, replies n = []) forest → forest = leaf <$> (row <$> forest).
Proof.
  induction 1 as [|[r k] forest Hk _ IH]; [done|].
  simpl in Hk. subst k. rewrite !fmap_cons, <- IH. done.
Qed.

(** A forest of one root with leaves below it, read off the order of its
    sibling sequences. *)
Lemma flat_thread_pinned (getTime : string → Z) (rows : list Row)
    (forest : list Node) (root : Row) (kids : list Row) :
  Family (λ parent s, StableSortOf getTime (repliesTo rows parent) s) None forest →
  arraySort (byKey (λ r, getTime (created_at r))) (repliesTo rows None) = [root] →
  arraySort (byKey (λ r, getTime (created_at r))) (repliesTo rows (Some (id root)))
  = kids →
  Forall (λ k, repliesTo rows (Some (id k)) = []) kids →
  forest = [{| row := root; replies := leaf <$> kids |}].
Proof.
  intros [Htop Hbelow]%Family_inv Hroot Hkids Hleaves.
  cbv beta in Htop. apply StableSortOf_arraySort in Htop. rewrite Hroot in Htop.
  destruct forest as [|[r0 k0] [|? ?]]; try discriminate Htop.
  injection Htop as ->. do 2 f_equal.
  apply (proj1 (Forall_cons _ _ _)) in Hbelow as [[Hmid Hlow]%Family_inv _].
  cbn [row replies] in Hmid, Hlow.
  cbv beta in Hmid. apply StableSortOf_arraySort in Hmid. rewrite Hkids in Hmid.
  rewrite <- Hmid. apply leaves_pinned.
  apply Forall_forall. intros n Hn.
  pose proof (proj1 (Forall_forall _ _) Hlow n Hn) as [Hs _]%Family_inv.
  cbv beta in Hs. apply StableSortOf_arraySort in Hs.
  rewrite (proj1 (Forall_forall _ _) Hleaves (row n)) in Hs.
  - by apply fmap_row_nil.
  - rewrite <- Hmid. by apply list_elem_of_fmap_2.
Qed.

(** ** The claims about [buildTree] *)

(** C9. For a collection with unique identifiers, [buildTree] returns, and in
    the forest it returns the root sequence and every [replies] sequence are
    in ascending order of creation time, the records of one same time being
    in the order they have in the input. More precisely the roots are the
    stable sort, by creation time, of the records that reply to no record of
    the collection, and the replies of every node the stable sort of the
    records that reply to it: all of them, in ascending order of time, those
    of one same time in the order of the input. *)
Theorem buildTree_siblings_chronological (getTime : string → Z) (rows : list Row) :
  NoDup (id <$> rows) →
  ∃ forest, buildTree getTime rows = Some forest ∧
            EverySiblings (Chronological getTime rows) forest ∧
            Family (λ parent s, StableSortOf getTime (repliesTo rows parent) s)
                   None forest.
Proof.
  intros Hnd.
  destruct (built_Chronological getTime rows Hnd) as (forest & Hrun & Hsib).
  destruct (buildTree_heap getTime rows)
    as (h & forest' & Hrun' & Hread & Hlinked & Hev & Hset).
  rewrite Hrun in Hrun'. injection Hrun' as <-.
  exists forest. split; [done|]. split; [done|].
  refine (readNodes_Family getTime (rowsOf (newMap rows).2) h _
            (byId_keyed rows) (proj1 Hlinked) _ _ Roots forest Hset Hread).
  intros a s Hs Hids Hgood. by apply (siblings_stable_sort getTime rows h a s).
Qed.

(** The example of the claim follows: replies supplied as c3, c1, c2 come
    out as c1, c2, c3; and a reply of the same instant as c1, supplied after
    it, comes out after it. *)
Lemma buildTree_siblings_chronological_witness :
  buildTree stamp [post; c3; c1; c2]
  = Some [{| row := post; replies := [leaf c1; leaf c2; leaf c3] |}] ∧
  buildTree stamp [post; c3; c1; c1'; c2]
  = Some [{| row := post; replies := [leaf c1; leaf c1'; leaf c2; leaf c3] |}].
Proof.
  split.
  - destruct (buildTree_siblings_chronological stamp [post; c3; c1; c2])
      as (forest & -> & _ & HF); [compute_done|].
    f_equal.
    apply (flat_thread_pinned stamp [post; c3; c1; c2] forest post [c1; c2; c3] HF);
      [reflexivity..|].
    repeat (apply List.Forall_cons; [reflexivity|]). apply List.Forall_nil.
  - destruct (buildTree_siblings_chronological stamp [post; c3; c1; c1'; c2])
      as (forest & -> & _ & HF); [compute_done|].
    f_equal.
    apply (flat_thread_pinned stamp [post; c3; c1; c1'; c2] forest post
             [c1; c1'; c2; c3] HF); [reflexivity..|].
    repeat (apply List.Forall_cons; [reflexivity|]). apply List.Forall_nil.
Defined.

(** The example of the claim: replies supplied as c3, c1, c2 come out as
    c1, c2, c3. *)
Example buildTree_three_replies :
  buildTree stamp [post; c3; c1; c2]
  = Some [{| row := post; replies := [leaf c1; leaf c2; leaf c3] |}].
Proof. by vm_compute. Qed.

(** Replies of one same time keep the order of the input. *)
Example buildTree_ties :
  buildTree stamp [c3; c1'; post; c1; c2]
  = Some [{| row := post; replies := [leaf c1'; leaf c1; leaf c2; leaf c3] |}]
  ∧ buildTree stamp [c3; c1; post; c1'; c2]
  = Some [{| row := post; replies := [leaf c1; leaf c1'; leaf c2; leaf c3] |}].
Proof. by vm_compute. Qed.

(** C1, as the code has it. For a collection with unique identifiers in
    which no record is its own ancestor, [buildTree] returns a forest that
    holds every record of the input once; and a record whose parent
    identifier is not in the collection is one of the roots. *)
Theorem buildTree_each_record_once (getTime : string → Z) (rows : list Row) :
  NoDup (id <$> rows) →
  acyclic rows = true →
  ∃ forest, buildTree getTime rows = Some forest ∧
            flattenAll forest ≡ₚ rows ∧
            ∀ r p, r ∈ rows → parent_id r = Some p → p ∉ id <$> rows →
                   r ∈ row <$> forest.
Proof. apply built_once. Qed.

Lemma buildTree_each_record_once_witness :
  ∃ forest, buildTree stamp (orphan :: thread) = Some forest ∧
            flattenAll forest ≡ₚ orphan :: thread ∧
            ∀ r p, r ∈ orphan :: thread → parent_id r = Some p →
                   p ∉ id <$> orphan :: thread → r ∈ row <$> forest.
Proof.
  apply (buildTree_each_record_once stamp (orphan :: thread)).
  - compute_done.
  - reflexivity.
Defined.

Example buildTree_orphan_is_root :
  buildTree stamp (orphan :: thread)
  = Some [leaf orphan;
          {| row := comment "A" None;
             replies := [{| row := comment "B" (Some "A");
                            replies := [leaf (comment "D" (Some "B"))] |};
                         leaf (comment "C" (Some "A"))] |}].
Proof. by vm_compute. Qed.

(** C1, as stated, fails on a collection with a cycle of parent links:
    neither record of [cycle] is a root, and the forest is empty. *)
Lemma buildTree_loses_cycle :
  NoDup (id <$> cycle) ∧
  buildTree stamp cycle = Some [] ∧
  ¬ flattenAll [] ≡ₚ cycle.
Proof.
  split; [compute_done|]. split; [by vm_compute|].
  intros H. by apply Permutation_nil_l in H.
Qed.

End CommentsSpec.

(** * Further properties of AuthProvider.tsx *)

Module AuthProviderMore.
Import AuthProvider AuthProviderSpec.

(** ** Notions *)

(** A store none of whose coming calls fails for reasons of its own. *)
Definition healthy (b : Backend) : Prop := Forall (λ f, f = None) (faults b).

(** The store after [n] calls that went through, the table being [rows]. *)
Definition spent (n : nat) (b : Backend) (rows : list Profile) : Backend :=
  {| profiles := rows; faults := Nat.iter n tail (faults b) |}.

(** The record [ensureProfile] inserts for a user without one. *)
Definition freshProfile (u : User) : Profile :=
  {| id := user_id u;
     display_name := d_display_name (buildProfileDefaults u);
     avatar_url := d_avatar_url (buildProfileDefaults u) |}.

(** The part of the provider state that is rendered. *)
Definition rendered (st : State)
    : option Session * option User * option Profile * bool * bool * option string :=
  (session st, user st, profile st, authLoading st, profileLoading st, errMsg st).

(** The events that commit through [commitIfLatest] only. *)
Definition guarded (ev : Event) : bool :=
  match ev with
  | Hydrate _ | ProfileResolved _ _ | ProfileRejected _ _ | ProfileSettled _
  | HydrateFailed _ _ => true
  | _ => false
  end.

Definition leo : User :=
  {| user_id := "u-leo"; email := Some "leo@example.org"; user_metadata := None |}.

(** ** The three calls to the store *)

Lemma selectProfile_cases userId b :
  ∃ o b', selectProfile userId b = (Ok o, b') ∧ profiles b' = profiles b ∧
          ∀ r, o = Some r → filter (λ x, id x = userId) (profiles b) = [r].
Proof.
  destruct (call_Ok (λ _, None)
              (λ rows, (match filter (λ r, id r = userId) rows with
                        | [r] => Some r
                        | _ => None
                        end, rows)) b) as (o & b' & H).
  fold (selectProfile userId) in H. exists o, b'. split; [done|].
  split; [by eapply selectProfile_rows|].
  intros r ->. by apply selectProfile_inv in H as [].
Qed.

Lemma insertProfile_cases row b :
  ∃ e b', insertProfile row b = (Ok e, b') ∧
          match e with
          | Some _ => profiles b' = profiles b
          | None => (id row ∉ id <$> profiles b) ∧ profiles b' = profiles b ++ [row]
          end.
Proof.
  unfold insertProfile, call.
  destruct (faults b) as [|[msg|] rest]; try case_decide;
    eexists _, _; (split; [reflexivity|]); done.
Qed.

Lemma updateProfile_cases patch userId b :
  ∃ e b', updateProfile patch userId b = (Ok e, b') ∧
          match e with
          | Some _ => profiles b' = profiles b
          | None => profiles b' = updateRows patch userId (profiles b)
          end.
Proof.
  unfold updateProfile, call.
  destruct (faults b) as [|[msg|] rest];
    eexists _, _; (split; [reflexivity|]); done.
Qed.

Lemma filter_absent (userId : string) (rows : list Profile) :
  userId ∉ id <$> rows → filter (λ r, id r = userId) rows = [].
Proof.
  induction rows as [|r rows IH]; [done|].
  rewrite fmap_cons, not_elem_of_cons. intros [Hne Hrows].
  rewrite filter_cons_False by congruence. auto.
Qed.

(** What a run of [ensureProfile] can do to the table, and what it can
    return in each case. *)
Lemma ensureProfile_cases (u : User) (b : Backend) :
  let o := (ensureProfile u b).1 in
  let b' := (ensureProfile u b).2 in
  (profiles b' = profiles b ∧
   ∀ p, o = Ok p → filter (λ r, id r = user_id u) (profiles b) = [p]) ∨
  (∃ existing,
     filter (λ r, id r = user_id u) (profiles b) = [existing] ∧
     profiles b' =
       updateRows (missingOnly existing (buildProfileDefaults u)) (user_id u) (profiles b) ∧
     ∀ p, o = Ok p →
          p = applyPatch (missingOnly existing (buildProfileDefaults u)) existing
          ∨ p = existing) ∨
  ((user_id u ∉ id <$> profiles b) ∧
   profiles b' = profiles b ++ [freshProfile u] ∧
   ∀ p, o = Ok p → p = freshProfile u).
Proof.
  unfold ensureProfile, bind.
  destruct (selectProfile_cases (user_id u) b) as (o1 & b1 & -> & Hb1 & Ho1).
  destruct o1 as [existing|].
  - specialize (Ho1 _ eq_refl).
    destruct (nonEmpty _).
    + destruct (updateProfile_cases (missingOnly existing (buildProfileDefaults u))
                  (user_id u) b1) as ([e|] & b2 & -> & Hb2).
      * left. simpl. split; [congruence|done].
      * destruct (selectProfile_cases (user_id u) b2) as (o3 & b3 & -> & Hb3 & Ho3).
        right. left. exists existing. split; [done|].
        rewrite Hb1 in Hb2.
        destruct o3 as [p3|]; simpl; (split; [congruence|]); intros p [= <-]; auto.
        left. specialize (Ho3 _ eq_refl).
        rewrite Hb2, filter_updateRows, Ho1 in Ho3. by injection Ho3.
    + left. simpl. split; [done|]. by intros p [= <-].
  - destruct (insertProfile_cases (freshProfile u) b1) as ([e|] & b2 & Hins & Hb2).
    + unfold freshProfile in Hins. rewrite Hins.
      destruct (selectProfile_cases (user_id u) b2) as (o3 & b3 & -> & Hb3 & Ho3).
      left. destruct o3 as [p3|]; simpl; (split; [congruence|]); [|done].
      intros p [= <-]. rewrite <- Hb1, <- Hb2. by apply Ho3.
    + unfold freshProfile in Hins. rewrite Hins. destruct Hb2 as [Hnew Hb2].
      destruct (selectProfile_cases (user_id u) b2) as (o3 & b3 & -> & Hb3 & Ho3).
      right. right. rewrite Hb1 in Hnew, Hb2. split; [done|].
      destruct o3 as [p3|]; simpl; (split; [congruence|]); [|done].
      intros p [= <-]. specialize (Ho3 _ eq_refl).
      rewrite Hb2, filter_app in Ho3.
      replace (filter (λ x, id x = user_id u) (profiles b)) with (@nil Profile) in Ho3.
      * rewrite filter_cons_True in Ho3 by done. by injection Ho3.
      * symmetry. by apply filter_absent.
Qed.


Lemma updateRows_ids patch userId rows : id <$> updateRows patch userId rows = id <$> rows.
Proof.
  unfold updateRows. rewrite <- list_fmap_compose. apply list_fmap_ext.
  intros i r _. simpl. by case_decide.
Qed.

Lemma updateRows_others patch userId rows :
  filter (λ r, id r ≠ userId) (updateRows patch userId rows)
  = filter (λ r, id r ≠ userId) rows.
Proof.
  unfold updateRows. induction rows as [|r rows IH]; [done|].
  rewrite fmap_cons. destruct (decide (id r = userId)) as [Heq|Hne].
  - rewrite !filter_cons_False by (rewrite ?applyPatch_id; tauto). done.
  - rewrite !filter_cons_True by done. by rewrite IH.
Qed.

(** X1. Whatever the store does, [ensureProfile] leaves the records of the other
    users as they are, deletes nothing, and adds at most one record: the one
    of its user, at the end of the table, when the table had none for that
    user. In particular the identifiers of the table stay unique. *)
Theorem ensureProfile_frame (u : User) (b : Backend) :
  let b' := (ensureProfile u b).2 in
  filter (λ r, id r ≠ user_id u) (profiles b')
    = filter (λ r, id r ≠ user_id u) (profiles b) ∧
  (id <$> profiles b' = id <$> profiles b ∨
   (user_id u ∉ id <$> profiles b) ∧
   profiles b' = profiles b ++ [freshProfile u]) ∧
  (NoDup (id <$> profiles b) → NoDup (id <$> profiles b')).
Proof.
  pose proof (ensureProfile_cases u b) as H. cbv zeta in *.
  destruct H as [[-> _]|[(existing & _ & -> & _)|(Hnew & -> & _)]].
  - split; [done|]. split; [by left|done].
  - rewrite updateRows_others, updateRows_ids. split; [done|]. split; [by left|done].
  - split; [|split; [by right|]].
    + rewrite filter_app, filter_cons_False by (simpl; tauto).
      by rewrite filter_nil, app_nil_r.
    + intros Hnd. rewrite fmap_app. apply NoDup_app. split; [done|].
      split; [|apply NoDup_singleton].
      by intros x Hx ->%list_elem_of_singleton.
Qed.

(** ** A store that answers *)

Lemma healthy_spent n b rows : healthy b → healthy (spent n b rows).
Proof.
  unfold spent, healthy. simpl. intros Hb.
  induction n as [|n IH]; [done|]. simpl. by destruct IH.
Qed.

Lemma call_healthy {A} (onFault : string → A) run b :
  healthy b →
  call onFault run b
  = (Ok (run (profiles b)).1,
     {| profiles := (run (profiles b)).2; faults := tail (faults b) |}).
Proof.
  unfold healthy, call. intros H.
  destruct H as [|f rest -> _]; by destruct (run (profiles b)).
Qed.

Lemma defaults_named (u : User) :
  truthy (d_display_name (buildProfileDefaults u)) = true.
Proof.
  unfold buildProfileDefaults, js_or. simpl.
  repeat match goal with |- context [if ?c then _ else _] => destruct c eqn:? end;
    done.
Qed.

Lemma defaults_avatar (u : User) :
  d_avatar_url (buildProfileDefaults u) = None ∨
  truthy (d_avatar_url (buildProfileDefaults u)) = true.
Proof.
  unfold buildProfileDefaults, js_or. simpl.
  repeat match goal with |- context [if ?c then _ else _] => destruct c eqn:? end;
    auto.
Qed.

Lemma filter_two (userId : string) (rows : list Profile) r1 r2 l :
  filter (λ r, id r = userId) rows = r1 :: r2 :: l → userId ∈ id <$> rows.
Proof.
  intros H. apply list_elem_of_fmap. exists r1.
  assert (r1 ∈ filter (λ r, id r = userId) rows) as [? ?]%list_elem_of_filter
    by (rewrite H; apply list_elem_of_here).
  done.
Qed.

Lemma filter_none (userId : string) (rows : list Profile) :
  filter (λ r, id r = userId) rows = [] → userId ∉ id <$> rows.
Proof.
  intros H (r & -> & Hr)%list_elem_of_fmap.
  assert (r ∈ filter (λ x, id x = id r) rows) as Hin by by apply list_elem_of_filter.
  rewrite H in Hin. by apply elem_of_nil in Hin.
Qed.

(** The run of [ensureProfile] against a store that answers. *)
Lemma ensureProfile_healthy (u : User) (b : Backend) :
  healthy b →
  ensureProfile u b =
  match filter (λ r, id r = user_id u) (profiles b) with
  | [] => (Ok (freshProfile u), spent 3 b (profiles b ++ [freshProfile u]))
  | [existing] =>
    let patch := missingOnly existing (buildProfileDefaults u) in
    if nonEmpty patch
    then (Ok (applyPatch patch existing),
          spent 3 b (updateRows patch (user_id u) (profiles b)))
    else (Ok existing, spent 1 b (profiles b))
  | _ => (Throw "duplicate key value violates unique constraint",
          spent 3 b (profiles b))
  end.
Proof.
  intros Hb. unfold ensureProfile, bind, selectProfile at 1.
  rewrite (call_healthy _ _ b Hb). cbn [fst snd].
  pose proof (healthy_spent 1 b (profiles b) Hb) as Hb1.
  pose proof (λ rows, healthy_spent 2 b rows Hb) as Hb2.
  unfold spent in Hb1, Hb2. simpl in Hb1, Hb2.
  destruct (filter _ (profiles b)) as [|existing [|r2 l]] eqn:Hrows.
  - unfold insertProfile. rewrite (call_healthy _ _ _ Hb1). cbn [fst snd profiles faults].
    rewrite decide_False by by apply filter_none.
    cbn [fst snd]. unfold selectProfile.
    rewrite call_healthy by apply Hb2. cbn [fst snd profiles faults].
    rewrite filter_app, Hrows, filter_cons_True by done. done.
  - cbn zeta. destruct (nonEmpty _); [|done].
    unfold updateProfile. rewrite (call_healthy _ _ _ Hb1). cbn [fst snd profiles faults].
    unfold selectProfile.
    rewrite call_healthy by apply Hb2. cbn [fst snd profiles faults].
    by rewrite filter_updateRows, Hrows.
  - unfold insertProfile. rewrite (call_healthy _ _ _ Hb1). cbn [fst snd profiles faults].
    rewrite decide_True by by eapply filter_two.
    cbn [fst snd]. unfold selectProfile.
    rewrite call_healthy by apply Hb2. cbn [fst snd profiles faults].
    by rewrite Hrows.
Qed.

Lemma filter_unique (userId : string) (rows : list Profile) :
  NoDup (id <$> rows) → length (filter (λ r, id r = userId) rows) ≤ 1.
Proof.
  induction rows as [|r rows IH]; [simpl; lia|].
  rewrite fmap_cons, NoDup_cons. intros [Hr Hnd].
  destruct (decide (id r = userId)) as [<-|Hne].
  - rewrite filter_cons_True by done. rewrite filter_absent by done. simpl. lia.
  - rewrite filter_cons_False by done. auto.
Qed.

Lemma missingOnly_named existing (u : User) :
  truthy (display_name
            (applyPatch (missingOnly existing (buildProfileDefaults u)) existing)) = true.
Proof.
  pose proof (defaults_named u) as Hd. revert Hd.
  generalize (buildProfileDefaults u). intros d Hd.
  unfold applyPatch, missingOnly. simpl.
  destruct (truthy (display_name existing)) eqn:He; simpl; [done|].
  rewrite Hd. by destruct (d_display_name d).
Qed.

Lemma missingOnly_settled existing (u : User) :
  nonEmpty (missingOnly existing (buildProfileDefaults u)) = false →
  truthy (display_name existing) = true.
Proof.
  pose proof (defaults_named u) as Hd. revert Hd.
  generalize (buildProfileDefaults u). intros d Hd.
  unfold nonEmpty, missingOnly. simpl. rewrite Hd.
  destruct (truthy (display_name existing)); [done|]. simpl.
  destruct (d_display_name d); [|done]. intros [H _]%orb_false_iff.
  apply bool_decide_eq_false in H. destruct H. eauto.
Qed.

Lemma missingOnly_twice existing (u : User) :
  nonEmpty (missingOnly
              (applyPatch (missingOnly existing (buildProfileDefaults u)) existing)
              (buildProfileDefaults u)) = false.
Proof.
  pose proof (missingOnly_named existing u) as Hn.
  pose proof (defaults_avatar u) as Ha. revert Hn Ha.
  generalize (buildProfileDefaults u). intros d Hn Ha.
  unfold nonEmpty, missingOnly at 1 3. rewrite Hn. simpl.
  unfold applyPatch, missingOnly. simpl.
  destruct Ha as [->|Ha].
  { change (truthy None) with false. by rewrite !andb_false_r. }
  rewrite Ha. destruct (truthy (avatar_url existing)) eqn:He; simpl.
  - by rewrite He.
  - destruct (d_avatar_url d); [|done]. simpl. by rewrite Ha.
Qed.

Lemma freshProfile_settled (u : User) :
  nonEmpty (missingOnly (freshProfile u) (buildProfileDefaults u)) = false.
Proof.
  unfold freshProfile.
  pose proof (defaults_named u) as Hd.
  pose proof (defaults_avatar u) as Ha. revert Hd Ha.
  generalize (buildProfileDefaults u). intros d Hd Ha.
  unfold nonEmpty, missingOnly. simpl.
  rewrite Hd. simpl.
  destruct Ha as [-> | ->]; done.
Qed.

(** X2. Against a store that answers and whose identifiers are unique,
    [ensureProfile] succeeds: it returns a profile of the user with a
    non-empty display name, and afterwards the table holds that profile as
    the one record of the user. *)
Theorem ensureProfile_healthy_store (u : User) (b : Backend) :
  healthy b → NoDup (id <$> profiles b) →
  ∃ p b', ensureProfile u b = (Ok p, b') ∧
          id p = user_id u ∧
          truthy (display_name p) = true ∧
          filter (λ r, id r = user_id u) (profiles b') = [p] ∧
          healthy b'.
Proof.
  intros Hb Hnd. rewrite (ensureProfile_healthy u b Hb).
  assert (Hsp : ∀ n rows, healthy (spent n b rows))
    by (intros; by apply healthy_spent).
  pose proof (filter_unique (user_id u) _ Hnd) as Hlen.
  destruct (filter _ (profiles b)) as [|existing [|r2 l]] eqn:Hrows;
    [| |simpl in Hlen; lia].
  - eexists _, _. split; [done|]. split; [done|]. split; [apply defaults_named|].
    split; [|done]. simpl.
    by rewrite filter_app, Hrows, filter_cons_True.
  - assert (id existing = user_id u) as Hid.
    { assert (existing ∈ filter (λ r, id r = user_id u) (profiles b)) as Hin
        by (rewrite Hrows; apply list_elem_of_here).
      by apply list_elem_of_filter in Hin as []. }
    cbn zeta. destruct (nonEmpty _) eqn:Hp.
    + eexists _, _. split; [done|]. split; [done|].
      split; [apply missingOnly_named|]. split; [|done]. simpl.
      by rewrite filter_updateRows, Hrows.
    + eexists _, _. split; [done|]. split; [done|].
      split; [by eapply missingOnly_settled|]. done.
Qed.

Lemma ensureProfile_healthy_store_witness :
  ∃ p b', ensureProfile leo {| profiles := [anaStored]; faults := [] |} = (Ok p, b') ∧
          id p = "u-leo" ∧
          truthy (display_name p) = true ∧
          filter (λ r, id r = "u-leo") (profiles b') = [p] ∧
          healthy b'.
Proof.
  apply (ensureProfile_healthy_store leo {| profiles := [anaStored]; faults := [] |}).
  - constructor.
  - compute_done.
Defined.

(** X3. Running [ensureProfile] again after a success, the store answering,
    gives the same profile and writes nothing. *)
Theorem ensureProfile_idempotent (u : User) (b b1 : Backend) (p : Profile) :
  healthy b →
  ensureProfile u b = (Ok p, b1) →
  (ensureProfile u b1).1 = Ok p ∧
  profiles (ensureProfile u b1).2 = profiles b1.
Proof.
  intros Hb Hrun.
  assert (Hsp : ∀ n rows, healthy (spent n b rows))
    by (intros; by apply healthy_spent).
  rewrite (ensureProfile_healthy u b Hb) in Hrun.
  assert (healthy b1 ∧ filter (λ r, id r = user_id u) (profiles b1) = [p] ∧
          nonEmpty (missingOnly p (buildProfileDefaults u)) = false)
    as (Hb1 & Hp & He).
  { destruct (filter _ (profiles b)) as [|existing [|r2 l]] eqn:Hrows.
    - injection Hrun as <- <-. split; [done|]. simpl.
      rewrite filter_app, Hrows, filter_cons_True by done.
      split; [done|apply freshProfile_settled].
    - cbn zeta in Hrun. destruct (nonEmpty _) eqn:Hne.
      + injection Hrun as <- <-. split; [done|]. simpl.
        rewrite filter_updateRows, Hrows. split; [done|apply missingOnly_twice].
      + injection Hrun as <- <-. done.
    - discriminate Hrun. }
  rewrite (ensureProfile_healthy u b1 Hb1), Hp. cbn zeta. by rewrite He.
Qed.

Lemma ensureProfile_idempotent_witness :
  (ensureProfile ana (spent 3 store
     [{| id := "u-ana"; display_name := Some "anita";
         avatar_url := Some "https://idp.example/ana.png" |}])).1
  = Ok {| id := "u-ana"; display_name := Some "anita";
          avatar_url := Some "https://idp.example/ana.png" |}.
Proof.
  refine (proj1 (ensureProfile_idempotent ana store _ _ _ _)).
  - constructor.
  - reflexivity.
Defined.


(** ** The alias *)

Lemma long_truthy (s : string) : 3 ≤ jsLength s → truthy (Some s) = true.
Proof. destruct s; simpl; [lia|done]. Qed.

Lemma updateRows_alias clean userId rows :
  Forall (λ r, id r = userId → display_name r = Some clean)
         (updateRows {| patch_display_name := Some clean; patch_avatar_url := None |}
                     userId rows).
Proof.
  unfold updateRows. apply Forall_fmap, Forall_forall. intros r _. simpl.
  case_decide; [done|]. intros ?. done.
Qed.

(** The run of [updateDisplayName]: the result, and the table afterwards. *)
Lemma updateDisplayName_cases trim (u : option User) (name : string) (b : Backend) :
  match (updateDisplayName trim u name b).1 with
  | Ok clean =>
    clean = trim name ∧ 3 ≤ jsLength clean ∧
    ∃ who, u = Some who ∧
      profiles (updateDisplayName trim u name b).2
      = updateRows {| patch_display_name := Some clean; patch_avatar_url := None |}
                   (user_id who) (profiles b)
  | Throw _ => profiles (updateDisplayName trim u name b).2 = profiles b
  end.
Proof.
  unfold updateDisplayName. destruct u as [who|]; [|done].
  destruct (jsLength (trim name) <? 3) eqn:Hlen; [done|].
  apply Nat.ltb_ge in Hlen. unfold bind.
  destruct (updateProfile_cases
              {| patch_display_name := Some (trim name); patch_avatar_url := None |}
              (user_id who) b) as ([e|] & b' & -> & Hb'); simpl; [done|].
  split; [done|]. split; [done|]. by exists who.
Qed.

(** X4. An alias is written only for a signed-in user and only if, trimmed, it
    has three characters or more; a refused alias does not reach the store.
    When the change fails, for whatever reason, the table is as before; when
    it succeeds, every record of the user carries the trimmed alias and the
    records of the other users are as before. *)
Theorem updateDisplayName_outcome trim (u : option User) (name : string) (b : Backend) :
  let o := (updateDisplayName trim u name b).1 in
  let b' := (updateDisplayName trim u name b).2 in
  (u = None ∨ jsLength (trim name) < 3 →
   (∃ msg, o = Throw msg) ∧ b' = b) ∧
  (∀ msg, o = Throw msg → profiles b' = profiles b) ∧
  (∀ clean, o = Ok clean →
     clean = trim name ∧ 3 ≤ jsLength clean ∧
     ∃ who, u = Some who ∧
       Forall (λ r, id r = user_id who → display_name r = Some clean) (profiles b') ∧
       filter (λ r, id r ≠ user_id who) (profiles b')
       = filter (λ r, id r ≠ user_id who) (profiles b) ∧
       id <$> profiles b' = id <$> profiles b).
Proof.
  pose proof (updateDisplayName_cases trim u name b) as H. cbv zeta.
  split; [|split].
  - unfold updateDisplayName. intros [->|Hshort]; [by eauto|].
    destruct u as [who|]; [|by eauto].
    apply Nat.ltb_lt in Hshort. rewrite Hshort. by eauto.
  - intros msg E. by rewrite E in H.
  - intros clean E. rewrite E in H. destruct H as (Hc & Hlen & who & -> & ->).
    split; [done|]. split; [done|]. exists who. split; [done|].
    split; [apply updateRows_alias|]. split; [apply updateRows_others|].
    apply updateRows_ids.
Qed.

(** The length that counts is the one JavaScript sees: an alias of two
    letters is refused, also when one of them takes two bytes, and an alias
    of three is written. *)
Example updateDisplayName_counts_code_units :
  updateDisplayName (λ s, s) (Some ana) "añ" store = (Throw "Alias too short", store) ∧
  (updateDisplayName (λ s, s) (Some ana) "año" store).1 = Ok "año".
Proof. split; reflexivity. Qed.

(** X5. Once a user has changed the alias, [ensureProfile] never brings the name
    of the identity provider back: whatever the store does during the later
    synchronisation, the records of the user keep the alias, and a profile
    that [ensureProfile] returns carries it. *)
Theorem alias_survives_sync trim (u : User) (name clean : string) (b b1 b2 : Backend) :
  user_id u ∈ id <$> profiles b →
  updateDisplayName trim (Some u) name b = (Ok clean, b1) →
  profiles b2 = profiles b1 →
  Forall (λ r, id r = user_id u → display_name r = Some clean)
         (profiles (ensureProfile u b2).2) ∧
  ∀ p, (ensureProfile u b2).1 = Ok p → display_name p = Some clean.
Proof.
  intros Hrow Hupd Hb2.
  pose proof (updateDisplayName_cases trim (Some u) name b) as H.
  rewrite Hupd in H. simpl in H.
  destruct H as (_ & Hlen%long_truthy & who & [= <-] & Hb1).
  assert (Hall : Forall (λ r, id r = user_id u → display_name r = Some clean)
                        (profiles b2))
    by (rewrite Hb2, Hb1; apply updateRows_alias).
  assert (Hin : user_id u ∈ id <$> profiles b2)
    by (by rewrite Hb2, Hb1, updateRows_ids).
  assert (Hone : ∀ p, filter (λ r, id r = user_id u) (profiles b2) = [p] →
                      display_name p = Some clean).
  { intros p Hp.
    assert (p ∈ filter (λ r, id r = user_id u) (profiles b2)) as [Hid Hmem]%list_elem_of_filter
      by (rewrite Hp; apply list_elem_of_here).
    by apply (proj1 (Forall_forall _ _) Hall p). }
  pose proof (ensureProfile_cases u b2) as Hcases. cbv zeta in Hcases.
  destruct Hcases as [[-> Hp]|[(existing & Hex & -> & Hp)|(Hnew & _)]].
  - split; [done|]. intros p E. by apply Hone, Hp.
  - pose proof (Hone _ Hex) as Hname.
    assert (Hkeep : patch_display_name (missingOnly existing (buildProfileDefaults u)) = None).
    { apply missingOnly_keeps. by rewrite Hname. }
    split.
    + unfold updateRows. apply Forall_fmap, Forall_forall. intros r Hr. simpl.
      pose proof (proj1 (Forall_forall _ _) Hall r Hr) as Hr'.
      case_decide; [|done]. intros _.
      rewrite (proj1 (applyPatch_keeps _ r) Hkeep). auto.
    + intros p [->| ->]%Hp; [|done].
      by rewrite (proj1 (applyPatch_keeps _ existing) Hkeep).
  - done.
Qed.

Lemma alias_survives_sync_witness :
  Forall (λ r, id r = "u-ana" → display_name r = Some "Anouk")
    (profiles (ensureProfile ana
       {| profiles := [{| id := "u-ana"; display_name := Some "Anouk";
                          avatar_url := None |}];
          faults := [Some "timeout"; None; Some "timeout"] |}).2).
Proof.
  refine (proj1 (alias_survives_sync (λ s, s) ana "Anouk" "Anouk" store _ _ _ _ _)).
  - apply list_elem_of_here.
  - reflexivity.
  - reflexivity.
Defined.

(** ** Readiness and unmounting *)

Lemma commitIfLatest_authLoading runId fn st :
  authLoading st = false →
  (∀ st0, authLoading st0 = false → authLoading (fn st0) = false) →
  authLoading (commitIfLatest runId fn st) = false.
Proof.
  intros Hst Hfn. unfold commitIfLatest.
  destruct (negb _); [done|]. destruct (negb _); [done|]. by apply Hfn.
Qed.

Lemma commitIfLatest_current fn st :
  mountedRef st = true → commitIfLatest (runIdRef st) fn st = fn st.
Proof. intros Hm. unfold commitIfLatest. by rewrite Hm, Nat.eqb_refl. Qed.

Lemma commit_now runId fn st :
  mountedRef st = true → runIdRef st = runId → commitIfLatest runId fn st = fn st.
Proof. intros Hm <-. by apply commitIfLatest_current. Qed.

Lemma commitIfLatest_unmounted runId fn st :
  mountedRef st = false → commitIfLatest runId fn st = st.
Proof. intros Hm. unfold commitIfLatest. by rewrite Hm. Qed.

Lemma hydrate_mounted s st :
  mountedRef st = true →
  (hydrateFromSession s st).1 =
  let st1 := setAuthLoading false
               (setUser (s ≫= session_user)
                  (setSession s (setErrMsg None (setRunId (S (runIdRef st)) st)))) in
  match s ≫= session_user with
  | Some u =>
    setProfileLoading true
      (setProfile (λ prev, match prev with
                           | Some p => Some p
                           | None =>
                             Some {| id := user_id u;
                                     display_name := d_display_name (buildProfileDefaults u);
                                     avatar_url := d_avatar_url (buildProfileDefaults u) |}
                           end) st1)
  | None => setProfileLoading false (setProfile (λ _, None) st1)
  end.
Proof.
  intros Hm. unfold hydrateFromSession. cbv zeta.
  set (r := S (runIdRef st)). set (st0 := setRunId r st).
  rewrite (commit_now r _ st0) by done. cbv beta.
  rewrite (commit_now r _ (setErrMsg None (setAuthLoading true st0))) by done.
  cbv beta.
  rewrite (commit_now r _
             (setUser (s ≫= session_user)
                (setSession s (setErrMsg None (setAuthLoading true st0))))) by done.
  destruct (s ≫= session_user); cbn [fst]; rewrite commit_now by done;
    by destruct st.
Qed.

Lemma hydrate_unmounted s st :
  mountedRef st = false →
  (hydrateFromSession s st).1 = setRunId (S (runIdRef st)) st.
Proof.
  intros Hm. unfold hydrateFromSession. cbv zeta.
  set (r := S (runIdRef st)). set (st0 := setRunId r st).
  rewrite !(commitIfLatest_unmounted r _ st0) by done.
  destruct (s ≫= session_user); cbn [fst];
    by rewrite ?(commitIfLatest_unmounted r _ st0) by done.
Qed.

Lemma step_authLoading ev st :
  authLoading st = false → authLoading (step ev st) = false.
Proof.
  intros Hst. destruct ev; simpl; try done;
    try (apply commitIfLatest_authLoading; done).
  destruct (mountedRef st) eqn:Hm.
  - rewrite hydrate_mounted by done. simpl. by destruct (s ≫= session_user).
  - by rewrite hydrate_unmounted.
Qed.

(** X6. A hydration makes the session usable at once, before any answer of the
    store: in a mounted provider, as soon as [hydrateFromSession] has reached
    its first suspension the session and the user are the new ones, the
    error is cleared, authentication no longer counts as loading, and a
    profile is shown exactly when there is a user. And readiness is never
    lost again: whatever happens later, [authLoading] stays [false]. *)
Theorem hydration_makes_auth_ready (s : option Session) (st : State) :
  (mountedRef st = true →
   let st1 := step (Hydrate s) st in
   session st1 = s ∧ user st1 = s ≫= session_user ∧
   errMsg st1 = None ∧ authLoading st1 = false ∧
   (is_Some (user st1) ↔ is_Some (profile st1)) ∧
   profileLoading st1 = bool_decide (is_Some (user st1))) ∧
  (∀ evs, authLoading st = false → authLoading (run evs st) = false).
Proof.
  split.
  - intros Hm. simpl. rewrite hydrate_mounted by done. cbv zeta.
    destruct (s ≫= session_user) as [u|] eqn:Hu; simpl.
    + do 4 (split; [done|]). split; [|done].
      split; intros _; [destruct (profile st)|]; eauto.
    + do 4 (split; [done|]). done.
  - intros evs. revert st. induction evs as [|ev evs IH]; intros st Hst; [done|].
    simpl. by apply IH, step_authLoading.
Qed.

Lemma hydration_makes_auth_ready_witness :
  authLoading
    (run [ProfileRejected 1 None; Hydrate None; InitFailed "offline"]
         (step (Hydrate anaSession) signedOut)) = false.
Proof.
  apply (proj2 (hydration_makes_auth_ready anaSession
                  (step (Hydrate anaSession) signedOut))).
  reflexivity.
Defined.

Lemma step_unmounted ev st :
  mountedRef st = false → guarded ev = true →
  mountedRef (step ev st) = false ∧ rendered (step ev st) = rendered st.
Proof.
  intros Hm Hg. destruct ev; try discriminate Hg; simpl;
    try (unfold onProfileResolved, onProfileRejected, onProfileSettled,
           onHydrateFailed; by rewrite commitIfLatest_unmounted).
  by rewrite hydrate_unmounted.
Qed.

(** X7. After the provider is unmounted, no hydration and no callback of a
    synchronisation, late or current, changes what would be rendered. *)
Theorem unmounted_provider_is_frozen (evs : list Event) (st : State) :
  mountedRef st = false →
  forallb guarded evs = true →
  rendered (run evs st) = rendered st ∧ mountedRef (run evs st) = false.
Proof.
  revert st. induction evs as [|ev evs IH]; intros st Hm Hg; [done|].
  simpl in Hg. apply andb_true_iff in Hg as [Hev Hevs].
  destruct (step_unmounted ev st Hm Hev) as [Hm' Hr'].
  simpl. destruct (IH (step ev st) Hm' Hevs) as [-> ->]. done.
Qed.

Lemma unmounted_provider_is_frozen_witness :
  rendered (run [Hydrate anaSession; ProfileResolved 1 anaStored; ProfileSettled 1]
                (step Unmounted signedOut))
  = rendered (step Unmounted signedOut).
Proof.
  apply (unmounted_provider_is_frozen
           [Hydrate anaSession; ProfileResolved 1 anaStored; ProfileSettled 1]
           (step Unmounted signedOut)); reflexivity.
Defined.

End AuthProviderMore.

(** * Further properties of Chat.tsx *)

Module ChatMore.
Import Chat ChatSpec.

(** ** Notions *)

(** The pushes delivered, in order, to the handler of the pair
    [(me, other)]. *)
Definition deliver (me other : string) (pushes : list Message) (st : State) : State :=
  foldl (λ s m, onInsert me other m s) st pushes.

(** What the message list of one conversation is expected to be: no
    identifier twice, and only messages between the two participants. *)
Definition Conversation (me other : string) (st : State) : Prop :=
  NoDup (id <$> messages st) ∧
  Forall (λ m, samePair m me other = true) (messages st).

(** The number of messages that [who] sent to [me]. *)
Definition receivedFrom (me who : string) (msgs : list Message) : nat :=
  length (filter (λ m, receiver_id m = me ∧ sender_id m = who) msgs).

(** ** Realtime pushes *)

Lemma onInsert_messages me other m st :
  messages (onInsert me other m st) =
  if samePair m me other && negb (existsb (λ x, String.eqb (id x) (id m)) (messages st))
  then messages st ++ [m] else messages st.
Proof.
  unfold onInsert, setMessages, appendUnlessPresent.
  destruct (samePair m me other); simpl; [|done].
  by destruct (existsb _ _).
Qed.

Lemma onInsert_frame me other m st :
  text (onInsert me other m st) = text st ∧
  error (onInsert me other m st) = error st.
Proof. unfold onInsert. by destruct (negb _). Qed.

Lemma onInsert_present me other m st :
  id m ∈ id <$> messages st → onInsert me other m st = st.
Proof.
  intros Hin%present_spec. unfold onInsert, setMessages, appendUnlessPresent.
  destruct (negb _); [done|]. rewrite Hin. by destruct st.
Qed.

Lemma onInsert_ids me other m st x :
  x ∈ id <$> messages (onInsert me other m st) ↔
  x ∈ id <$> messages st ∨ (samePair m me other = true ∧ id m = x).
Proof.
  rewrite onInsert_messages.
  destruct (samePair m me other) eqn:Hs; simpl.
  - destruct (existsb _ _) eqn:E; simpl.
    + apply present_spec in E. split; [auto|]. intros [?|[_ <-]]; done.
    + rewrite fmap_app, elem_of_app. simpl. rewrite list_elem_of_singleton.
      split; (intros [?|?]; [by left|right]); [done|]. by destruct H.
  - split; [auto|]. by intros [?|[? _]].
Qed.

Lemma onInsert_NoDup me other m st :
  NoDup (id <$> messages st) → NoDup (id <$> messages (onInsert me other m st)).
Proof.
  intros Hnd. rewrite onInsert_messages.
  destruct (samePair m me other); simpl; [|done].
  destruct (existsb _ _) eqn:E; simpl; [done|].
  rewrite fmap_app. apply NoDup_app. split; [done|]. split; [|apply NoDup_singleton].
  intros x Hx ->%list_elem_of_singleton.
  apply present_spec in Hx. congruence.
Qed.

Lemma deliver_snoc me other pushes m st :
  deliver me other (pushes ++ [m]) st = onInsert me other m (deliver me other pushes st).
Proof. unfold deliver. by rewrite foldl_app. Qed.

Lemma deliver_spec me other pushes st :
  messages st `prefix_of` messages (deliver me other pushes st) ∧
  text (deliver me other pushes st) = text st ∧
  error (deliver me other pushes st) = error st ∧
  (∀ x, x ∈ id <$> messages (deliver me other pushes st) ↔
        x ∈ id <$> messages st ∨
        ∃ m, m ∈ pushes ∧ samePair m me other = true ∧ id m = x) ∧
  (NoDup (id <$> messages st) →
   NoDup (id <$> messages (deliver me other pushes st))).
Proof.
  induction pushes as [|m pushes IH] using rev_ind; simpl.
  - split; [done|]. do 2 (split; [done|]). split; [|done].
    intros x. split; [auto|]. intros [?|(m & []%elem_of_nil & _)]. done.
  - rewrite deliver_snoc. destruct IH as (Hpre & Ht & He & Hids & Hnd).
    destruct (onInsert_frame me other m (deliver me other pushes st)) as [-> ->].
    split.
    { etrans; [exact Hpre|]. rewrite onInsert_messages.
      destruct (_ && _); [by apply prefix_app_r|done]. }
    do 2 (split; [done|]). split.
    + intros x. rewrite onInsert_ids, Hids. setoid_rewrite elem_of_app.
      setoid_rewrite list_elem_of_singleton. naive_solver.
    + intros H. by apply onInsert_NoDup, Hnd.
Qed.

(** X8. Whatever the realtime channel delivers, the list on screen only grows at
    its end: the messages already shown stay where they are, the draft and
    the error line are not touched, the identifiers shown afterwards are the
    old ones and those of the delivered messages of this conversation, and
    identifiers that were unique stay unique. A message that the channel
    delivers a second time, at any later moment, changes nothing. *)
Theorem pushes_extend_history (me other : string) (pushes : list Message) (st : State) :
  let st' := deliver me other pushes st in
  messages st `prefix_of` messages st' ∧
  text st' = text st ∧ error st' = error st ∧
  (∀ x, x ∈ id <$> messages st' ↔
        x ∈ id <$> messages st ∨
        ∃ m, m ∈ pushes ∧ samePair m me other = true ∧ id m = x) ∧
  (NoDup (id <$> messages st) → NoDup (id <$> messages st')) ∧
  (∀ m, m ∈ pushes → onInsert me other m st' = st').
Proof.
  destruct (deliver_spec me other pushes st) as (Hpre & Ht & He & Hids & Hnd).
  cbv zeta. do 5 (split; [done|]).
  intros m Hin. destruct (samePair m me other) eqn:Hs.
  - apply onInsert_present, Hids. right. by exists m.
  - unfold onInsert. by rewrite Hs.
Qed.

(** ** The invariant of the message list *)

Lemma filter_ids_NoDup (P : Message → Prop) `{∀ m, Decision (P m)} (l : list Message) :
  NoDup (id <$> l) → NoDup (id <$> filter P l).
Proof.
  intros Hnd. eapply sublist_NoDup; [exact Hnd|apply fmap_sublist, sublist_filter].
Qed.

(** X9. Between a load and the next change of peer, every handler that writes
    the message list keeps it a conversation of the two participants with
    unique identifiers: a realtime push, an optimistic send (its identifier
    being fresh), the return of the insert, failed or not, and a reload that
    fails. *)
Theorem conversation_preserved (me other : string) (st : State) :
  Conversation me other st →
  (∀ m, Conversation me other (onInsert me other m st)) ∧
  (∀ trim sel uuid now st1 sent,
     p_id sel = other → uuid ∉ id <$> messages st →
     send trim (Some me) (Some sel) uuid now st = AwaitInsert st1 sent →
     Conversation me other st1) ∧
  (∀ sent err, Conversation me other (send_resume sent err st)) ∧
  (∀ data msg, Conversation me other (loadMessages_resume data (Some msg) st)).
Proof.
  intros [Hnd Hall]. split; [|split; [|split; [|done]]].
  - intros m. split; [by apply onInsert_NoDup|].
    rewrite onInsert_messages. destruct (samePair m me other) eqn:Hs; simpl; [|done].
    destruct (existsb _ _); simpl; [done|].
    apply Forall_app. split; [done|]. by apply Forall_singleton.
  - intros trim sel uuid now st1 sent Hsel Hfresh Hsend.
    pose proof Hsend as (Hid & _ & _ & Hmsgs)%send_await.
    assert (Hsent : sender_id sent = me ∧ receiver_id sent = other).
    { revert Hsend. unfold send.
      destruct (negb _ || negb _); [discriminate|].
      destruct (negb _); [discriminate|]. intros [= _ <-]. by rewrite <- Hsel. }
    split; rewrite Hmsgs.
    + rewrite fmap_app. apply NoDup_app. split; [done|].
      split; [|apply NoDup_singleton].
      intros x Hx ->%list_elem_of_singleton. simpl in Hx. congruence.
    + apply Forall_app. split; [done|]. apply Forall_singleton.
      apply samePair_spec. by left.
  - intros sent [msg|]; [|done]. unfold send_resume, setMessages, setError; simpl.
    split; [by apply filter_ids_NoDup|].
    apply Forall_forall. intros x [_ Hx]%list_elem_of_filter.
    by apply (proj1 (Forall_forall _ _) Hall).
Qed.

Lemma conversation_preserved_witness :
  Conversation alice bob
    (setMessages (λ prev, prev ++ [echo]) (setText "" history)).
Proof.
  refine (proj1 (proj2 (conversation_preserved alice bob history _))
            (λ s, s) bobProfile "m2" "2024-05-01T10:00:05Z" _ echo _ _ _).
  - split; [compute_done|]. by repeat constructor.
  - reflexivity.
  - vm_compute. by intros [?|?]%elem_of_cons; [|set_solver].
  - reflexivity.
Defined.

(** ** Unread badges *)

Lemma countUnread_lookup me map m who :
  countUnread me map m !! who =
  if bool_decide (receiver_id m = me ∧ sender_id m = who)
  then Some (default 0 (map !! who) + 1) else map !! who.
Proof.
  unfold countUnread.
  destruct (String.eqb (receiver_id m) me) eqn:E; simpl.
  - apply String.eqb_eq in E.
    destruct (decide (sender_id m = who)) as [<-|Hne].
    + rewrite lookup_insert_eq, bool_decide_eq_true_2; done.
    + rewrite lookup_insert_ne, bool_decide_eq_false_2; [done|tauto|done].
  - apply String.eqb_neq in E. rewrite bool_decide_eq_false_2; [done|tauto].
Qed.

Lemma foldl_countUnread me msgs map who :
  foldl (countUnread me) map msgs !! who =
  match map !! who, receivedFrom me who msgs with
  | None, 0 => None
  | o, n => Some (default 0 o + n)
  end.
Proof.
  unfold receivedFrom. revert map.
  induction msgs as [|m msgs IH]; intros map; simpl.
  - destruct (map !! who); simpl; [f_equal; lia|done].
  - rewrite IH, countUnread_lookup, filter_cons.
    destruct (decide (receiver_id m = me ∧ sender_id m = who)) as [H|H].
    + rewrite bool_decide_eq_true_2 by done. simpl.
      destruct (map !! who); simpl; f_equal; lia.
    + by rewrite bool_decide_eq_false_2.
Qed.

(** X10. The badge of a peer is the number of loaded messages that the peer sent
    to the signed-in user; a peer who sent none has no entry, and nothing is
    counted while nobody is signed in. *)
Theorem unreadByUser_counts (me : option string) (msgs : list Message) (who : string) :
  unreadByUser me msgs !! who =
  match me with
  | Some me_id =>
    if truthy me
    then match receivedFrom me_id who msgs with 0 => None | n => Some n end
    else None
  | None => None
  end.
Proof.
  unfold unreadByUser. destruct me as [me_id|]; [|done].
  destruct (truthy (Some me_id)); simpl; [|done].
  rewrite foldl_countUnread, lookup_empty. by destruct (receivedFrom _ _ _).
Qed.

(** ** The list of peers *)

Lemma some_spec (x : string) (l : list Profile) :
  existsb (λ o, String.eqb (p_id o) x) l = true ↔ x ∈ p_id <$> l.
Proof.
  induction l as [|y l IH]; simpl.
  - split; [discriminate | by intros ?%elem_of_nil].
  - rewrite orb_true_iff, IH, String.eqb_eq, elem_of_cons.
    split; (intros [H|H]; [left; by symmetry | by right]).
Qed.

(** X11. After a successful reload of the peers, the signed-in user is not in the
    list; the selected peer is one of the listed ones; the previous selection
    is kept whenever it is still listed, and replaced by the first peer
    otherwise; and nobody is selected only when the list is empty. A failed
    reload empties the list, clears the selection and shows the error. *)
Theorem loadProfiles_selection (me : string) (data : option (list Profile))
    (r : Roster) (st : State) :
  let r' := (loadProfiles_resume me data None r st).1 in
  profiles r' = filter (λ p, p_id p ≠ me) (default [] data) ∧
  (∀ s, selected r' = Some s → p_id s ≠ me ∧ p_id s ∈ p_id <$> profiles r') ∧
  (∀ p, selected r = Some p → p_id p ∈ p_id <$> profiles r' → selected r' = Some p) ∧
  (∀ s, selected r' = Some s → selected r ≠ Some s → head (profiles r') = Some s) ∧
  (selected r' = None ↔ profiles r' = []) ∧
  (∀ msg, loadProfiles_resume me data (Some msg) r st
          = ({| profiles := []; selected := None |}, setError msg st)).
Proof.
  simpl. set (others := filter _ _).
  assert (Hothers : ∀ x, x ∈ p_id <$> others → x ≠ me).
  { intros x (p & -> & [Hp _]%list_elem_of_filter)%list_elem_of_fmap. done. }
  assert (Hhead : ∀ s, head others = Some s → p_id s ∈ p_id <$> others).
  { intros s Hs. apply list_elem_of_fmap. exists s. split; [done|].
    destruct others; [done|]. injection Hs as ->. apply list_elem_of_here. }
  assert (Hsel : ∀ s, keepSelected others (selected r) = Some s →
            (selected r = Some s ∧ p_id s ∈ p_id <$> others) ∨
            head others = Some s).
  { unfold keepSelected. intros s.
    destruct (selected r) as [p|]; [destruct (existsb _ _) eqn:E|].
    - intros [= ->]. left. split; [done|]. by apply some_spec.
    - intros Hs. by right.
    - intros Hs. by right. }
  split; [done|]. split; [|split; [|split; [|split]]].
  - intros s [[_ Hin]|Hs%Hhead]%Hsel; auto.
  - intros p [= ->] Hin%some_spec. unfold keepSelected. by rewrite Hin.
  - intros s [[? _]|?]%Hsel; done.
  - unfold keepSelected. split.
    + destruct (selected r) as [p|]; [destruct (existsb _ _) eqn:E|];
        try discriminate; by destruct others.
    + intros ->. by destruct (selected r).
  - done.
Qed.

(** ** Conversation identity and channel name *)

Lemma dmChannel_swap a b : dmChannel a b = dmChannel b a.
Proof.
  unfold dmChannel. destruct (String.ltb a b) eqn:Hab.
  - by rewrite (ltb_asym _ _ Hab).
  - destruct (String.ltb b a) eqn:Hba; [done|].
    by rewrite (ltb_connex _ _ Hab Hba).
Qed.

(** X12. The filter of the realtime handler agrees with the name of the channel
    it listens on: a message between the two participants has, as channel of
    its own sender and receiver, the subscribed channel; and for identifiers
    without a colon, a message whose channel is the subscribed one passes
    the filter. *)
Theorem samePair_same_channel (m : Message) (me other : string) :
  (samePair m me other = true →
   dmChannel (sender_id m) (receiver_id m) = dmChannel me other) ∧
  (colonFree (sender_id m) = true → colonFree (receiver_id m) = true →
   colonFree me = true → colonFree other = true →
   dmChannel (sender_id m) (receiver_id m) = dmChannel me other →
   samePair m me other = true).
Proof.
  split.
  - intros [[-> ->]|[-> ->]]%samePair_spec; [done|apply dmChannel_swap].
  - intros Hs Hr Hme Ho. rewrite samePair_spec. unfold dmChannel.
    destruct (String.ltb (sender_id m) (receiver_id m)), (String.ltb me other);
      intros Heq%(inj (String.append "dm:"));
      apply delimited_inj in Heq as [-> ->]; auto.
Qed.

Lemma samePair_same_channel_witness :
  dmChannel (sender_id hello) (receiver_id hello) = dmChannel alice bob.
Proof.
  apply (proj1 (samePair_same_channel hello alice bob)). reflexivity.
Defined.

(** ** A send with the channel running *)

Lemma onInsert_count me other m st (x : string) :
  x ∈ id <$> messages st →
  length (filter (λ y, id y = x) (messages (onInsert me other m st)))
  = length (filter (λ y, id y = x) (messages st)).
Proof.
  intros Hx. rewrite onInsert_messages.
  destruct (samePair m me other); simpl; [|done].
  destruct (existsb _ _) eqn:E; simpl; [done|].
  rewrite filter_app, length_app. rewrite filter_cons_False; [simpl; lia|].
  intros Hid. apply not_true_iff_false in E. apply E, present_spec. by rewrite Hid.
Qed.

Lemma deliver_count me other pushes st (x : string) :
  x ∈ id <$> messages st →
  length (filter (λ y, id y = x) (messages (deliver me other pushes st)))
  = length (filter (λ y, id y = x) (messages st)).
Proof.
  intros Hx. induction pushes as [|m pushes IH] using rev_ind; [done|].
  rewrite deliver_snoc, onInsert_count; [done|].
  apply (deliver_spec me other pushes st). by left.
Qed.

(** X19. An optimistic send with a fresh identifier, and the realtime channel
    delivering whatever it delivers while the insert is in flight (the echo
    of the message itself, once or several times, included): when the
    insert succeeds the message is in the list exactly once; when it fails
    (no echo then), the list is what the deliveries alone would have made
    it. *)
Theorem send_round_trip_with_pushes
    trim me selected uuid now st st1 sent me' other (pushes : list Message) :
  uuid ∉ id <$> messages st →
  send trim me selected uuid now st = AwaitInsert st1 sent →
  let st2 := deliver me' other pushes st1 in
  sent ∈ messages (send_resume sent None st2) ∧
  length (filter (λ m, id m = uuid) (messages (send_resume sent None st2))) = 1 ∧
  (∀ msg, Forall (λ m, id m ≠ uuid) pushes →
     messages (send_resume sent (Some msg) st2)
     = messages (deliver me' other pushes st) ∧
     error (send_resume sent (Some msg) st2) = msg).
Proof.
  intros Hfresh Hsend st2. unfold st2. clear st2.
  pose proof (send_await _ _ _ _ _ _ _ _ Hsend) as (Hsent & _ & _ & Hmsgs).
  destruct (deliver_spec me' other pushes st1) as (Hpre & _).
  split; [|split].
  - simpl. destruct Hpre as [k ->]. rewrite Hmsgs.
    apply elem_of_app. left. apply elem_of_app. right. apply list_elem_of_here.
  - simpl. rewrite deliver_count.
    + rewrite Hmsgs. by apply count_fresh_snoc.
    + rewrite Hmsgs, fmap_app, elem_of_app. right. simpl. rewrite Hsent.
      apply list_elem_of_here.
  - intros msg Hpushes. split; [|done].
    by apply (rollback_between_pushes trim me selected uuid now st st1 sent msg).
Qed.

Lemma send_round_trip_with_pushes_witness :
  length (filter (λ m, id m = "m2")
            (messages (send_resume echo None
               (deliver alice bob [echo; hello; echo]
                  (setMessages (λ prev, prev ++ [echo]) (setText "" history)))))) = 1.
Proof.
  refine (proj1 (proj2 (send_round_trip_with_pushes (λ s, s) (Some alice)
            (Some bobProfile) "m2" "2024-05-01T10:00:05Z" history _ echo
            alice bob [echo; hello; echo] _ _))).
  - vm_compute. by intros [?|?]%elem_of_cons; [|set_solver].
  - reflexivity.
Defined.

End ChatMore.

(** * Further properties of Comments.tsx *)

Module CommentsMore.
Import Comments CommentsSpec.

(** ** Every input *)

Lemma good_in_rows (rows : list Row) (r : Row) :
  rowsOf (newMap rows).2 !! id r = Some r → r ∈ rows.
Proof.
  unfold rowsOf. rewrite lookup_fmap. intros H.
  destruct ((newMap rows).2 !! id r) as [c|] eqn:Hc; [|done].
  injection H as <-.
  by destruct (newMap_inv rows) as (_ & _ & _ & Hcells);
    destruct (Hcells _ _ Hc) as (_ & _ & ?).
Qed.

(** X13. [buildTree] returns on every input, also on one with dangling or cyclic
    parent links or with repeated identifiers; no identifier is shown twice
    in the forest it returns, and every record shown is a record of the
    input. *)
Theorem buildTree_total_no_repeats (getTime : string → Z) (rows : list Row) :
  ∃ forest, buildTree getTime rows = Some forest ∧
            NoDup (id <$> flattenAll forest) ∧
            ∀ r, r ∈ flattenAll forest → r ∈ rows.
Proof.
  destruct (build_run getTime rows (λ _, True))
    as (h & forest & Hrun & Hlinked & _ & Hreads & _); [done|].
  exists forest. split; [done|].
  destruct Hreads as (_ & _ & Hall & _ & _ & Hnd). split.
  - apply (Hnd 0).
    + by destruct Hlinked as [_ Harr]; destruct (Harr Roots).
    + intros x Hx. by eapply roots_depth.
  - intros r Hr. apply good_in_rows.
    by apply (proj1 (Forall_forall _ _) Hall).
Qed.

(** ** Who replies to whom *)

Lemma in_by_id (rows s : list Row) (r : Row) :
  Forall (λ q, rowsOf (newMap rows).2 !! id q = Some q) s →
  rowsOf (newMap rows).2 !! id r = Some r →
  id r ∈ id <$> s → r ∈ s.
Proof.
  intros Hs Hr (q & Hid & Hq)%list_elem_of_fmap.
  pose proof (proj1 (Forall_forall _ _) Hs q Hq) as Hgood. simpl in Hgood.
  rewrite <- Hid, Hr in Hgood. by injection Hgood as <-.
Qed.

(** The siblings [buildTree] reads from the array [a] are the records of the
    collection whose parent is the one [a] stands for. *)
Lemma siblings_by_parent (rows : list Row) (h : Heap) (a : ArrRef) (s : list Row) :
  NoDup (id <$> rows) →
  Linked (rowsOf (newMap rows).2) h →
  id <$> s = readArr h a →
  Forall (λ r, rowsOf (newMap rows).2 !! id r = Some r) s →
  ∀ r, r ∈ s ↔ r ∈ rows ∧ parentKey rows r = parentOf a.
Proof.
  intros Hnd [_ Harr] Hids Hgood r. destruct (Harr a) as [_ Hin].
  unfold parentKey. split.
  - intros Hr. pose proof (proj1 (Forall_forall _ _) Hgood r Hr) as Hrow.
    assert (r ∈ rows) as Hrows by by apply good_in_rows.
    split; [done|]. rewrite <- par_parentIn by done.
    apply Hin. rewrite <- Hids. apply list_elem_of_fmap. by exists r.
  - intros [Hr Hp].
    pose proof (proj1 (Forall_forall _ _) (rows_good rows Hnd) r Hr) as Hrow.
    apply (in_by_id rows); [done..|].
    rewrite Hids. apply Hin. split; [by rewrite Hrow|].
    by rewrite par_parentIn.
Qed.

Lemma parentKey_None (rows : list Row) (r : Row) :
  parentKey rows r = None ↔
  truthy (parent_id r) = false ∨ ∃ p, parent_id r = Some p ∧ p ∉ id <$> rows.
Proof.
  unfold parentKey, parentIn, parentLink.
  destruct (truthy (parent_id r)) eqn:Ht; simpl; [|by split; auto].
  destruct (parent_id r) as [p|]; [|done]. simpl.
  unfold lookupRow. destruct (List.find _ rows) as [q|] eqn:Hq; simpl.
  - apply find_some in Hq as [Hq <-%String.eqb_eq].
    split; [done|]. intros [[=]|(p' & [= <-] & Hp)]. destruct Hp.
    apply list_elem_of_fmap. exists q. split; [done|]. by apply list_elem_of_In.
  - split; [|done]. intros _. right. exists p. split; [done|].
    intros (q & -> & Hin)%list_elem_of_fmap.
    apply list_elem_of_In in Hin.
    pose proof (find_none _ _ Hq q Hin) as Hne. simpl in Hne.
    by rewrite String.eqb_refl in Hne.
Qed.

(** X14. For a collection with unique identifiers, the replies of every node of
    the forest are the records that name that node as their parent, all of
    them and no others; and the roots are the records whose parent
    identifier is null, empty, or not an identifier of the collection. *)
Theorem buildTree_replies_match_parents (getTime : string → Z) (rows : list Row) :
  NoDup (id <$> rows) →
  ∃ forest,
    buildTree getTime rows = Some forest ∧
    Family (λ parent s, ∀ r, r ∈ s ↔ r ∈ rows ∧ parentKey rows r = parent)
           None forest ∧
    ∀ r, r ∈ row <$> forest ↔
         r ∈ rows ∧
         (truthy (parent_id r) = false ∨
          ∃ p, parent_id r = Some p ∧ p ∉ id <$> rows).
Proof.
  intros Hnd.
  destruct (buildTree_heap getTime rows)
    as (h & forest & Hrun & Hread & Hlinked & _ & Hset).
  exists forest. split; [done|].
  assert (HF : Family (λ parent s, ∀ r, r ∈ s ↔ r ∈ rows ∧ parentKey rows r = parent)
                 None forest).
  { apply (readNodes_Family getTime (rowsOf (newMap rows).2) h _
             (byId_keyed rows) (proj1 Hlinked)
             (λ a s _ Hids Hgood, siblings_by_parent rows h a s Hnd Hlinked Hids Hgood)
             _ Roots forest Hset Hread). }
  split; [done|]. intros r.
  rewrite (proj1 (Family_inv _ _ _ HF) r). by rewrite parentKey_None.
Qed.

Lemma buildTree_replies_match_parents_witness :
  ∃ forest,
    buildTree stamp thread = Some forest ∧
    Family (λ parent s, ∀ r, r ∈ s ↔ r ∈ thread ∧ parentKey thread r = parent)
           None forest ∧
    ∀ r, r ∈ row <$> forest ↔
         r ∈ thread ∧
         (truthy (parent_id r) = false ∨
          ∃ p, parent_id r = Some p ∧ p ∉ id <$> thread).
Proof.
  apply (buildTree_replies_match_parents stamp thread). compute_done.
Defined.


(** ** What a cycle costs *)

Lemma AtDepth_climbs (rows : list Row) :
  NoDup (id <$> rows) →
  ∀ d k, AtDepth (rowsOf (newMap rows).2) d k →
  ∀ r fuel, r ∈ rows → id r = k → d < fuel → climbs fuel rows r = true.
Proof.
  intros Hnd d k Hd.
  induction Hd as [k _ Hp|k p d Hp _ IH]; intros r fuel Hr <- Hfuel;
    (destruct fuel as [|fuel]; [lia|]); simpl;
    rewrite (par_parentIn rows Hnd r Hr) in Hp;
    destruct (parentIn rows r) as [q|] eqn:Hq; try done.
  injection Hp as <-. apply IH; [by eapply parentIn_rows|done|lia].
Qed.

(** X15. For a collection with unique identifiers, the forest holds exactly the
    records from which following the parent links comes to an end: a record
    on a cycle of parent links, or below one, is not shown, and every other
    record is. *)
Theorem buildTree_shows_rooted_records (getTime : string → Z) (rows : list Row) :
  NoDup (id <$> rows) →
  ∃ forest,
    buildTree getTime rows = Some forest ∧
    ∀ r, r ∈ flattenAll forest ↔ r ∈ rows ∧ climbs (length rows) rows r = true.
Proof.
  intros Hnd.
  destruct (build_run getTime rows (λ _, True))
    as (h & forest & Hrun & [Hrows Harr] & _ & Hreads & _); [done|].
  destruct Hreads as (_ & _ & Hgood & _ & Hin & _).
  assert (Hroot : ∀ x, x ∈ roots h ↔ AtDepth (rowsOf (newMap rows).2) 0 x).
  { intros x. rewrite (proj2 (Harr Roots) x). simpl. split.
    - intros []. by constructor.
    - by inversion 1. }
  exists forest. split; [done|]. intros r. split.
  - intros Hr.
    pose proof (proj1 (Forall_forall _ _) Hgood r Hr) as Hrow. simpl in Hrow.
    assert (r ∈ rows) as Hmem by by apply good_in_rows.
    split; [done|].
    destruct (proj1 (Hin (id r))) as (x & j & Hx%Hroot & Hu);
      [apply list_elem_of_fmap; by exists r|].
    pose proof (Under_depth _ _ _ _ _ Hu Hx) as Hd. simpl in Hd.
    apply (AtDepth_climbs rows Hnd j (id r) Hd); [done..|].
    pose proof (AtDepth_bound _ _ _ Hd). pose proof (size_R rows). lia.
  - intros [Hr Hclimb].
    destruct (climbs_AtDepth rows Hnd _ r Hr Hclimb) as [d Hd].
    apply AtDepth_Under in Hd as (x & Hx & Hu).
    apply (in_by_id rows); [done| |].
    + by apply (proj1 (Forall_forall _ _) (rows_good rows Hnd)).
    + apply Hin. exists x, d. split; [by apply Hroot|done].
Qed.

Lemma buildTree_shows_rooted_records_witness :
  ∃ forest,
    buildTree stamp (comment "C" None :: cycle) = Some forest ∧
    ∀ r, r ∈ flattenAll forest ↔
         r ∈ comment "C" None :: cycle ∧ climbs 3 (comment "C" None :: cycle) r = true.
Proof.
  apply (buildTree_shows_rooted_records stamp (comment "C" None :: cycle)).
  compute_done.
Defined.

(** ** Input in the order of the query *)

Lemma StronglySorted_filter {A} (R : A → A → Prop) (P : A → Prop)
    `{!∀ x, Decision (P x)} (l : list A) :
  StronglySorted R l → StronglySorted R (filter P l).
Proof.
  induction 1 as [|x l _ IH Hx]; [constructor|].
  rewrite filter_cons. destruct (decide (P x)); [|done].
  constructor; [done|].
  apply Forall_forall. intros y [_ Hy]%list_elem_of_filter.
  by apply (proj1 (Forall_forall _ _) Hx).
Qed.

Lemma time_Ascending (getTime : string → Z) (rows l : list Row) :
  Forall (λ r, rowsOf (newMap rows).2 !! id r = Some r) l →
  StronglySorted (λ r r', (getTime (created_at r) ≤ getTime (created_at r'))%Z) l →
  Ascending (key getTime (rowsOf (newMap rows).2)) (id <$> l).
Proof.
  unfold Ascending. intros Hgood Hs.
  induction Hs as [|r l _ IH Hr]; [constructor|].
  apply Forall_cons in Hgood as [Hrow Hgood].
  rewrite fmap_cons. constructor; [by apply IH|].
  apply Forall_fmap, Forall_forall. intros q Hq. simpl.
  rewrite !key_time; [|by apply (proj1 (Forall_forall _ _) Hgood)|done].
  by apply (proj1 (Forall_forall _ _) Hr).
Qed.

(** X16. When the records come in ascending order of creation time, as the query
    of [load] asks for, sorting changes nothing: the roots, and the replies
    of every node, stand in the order they have in the input. *)
Theorem buildTree_keeps_loaded_order (getTime : string → Z) (rows : list Row) :
  NoDup (id <$> rows) →
  StronglySorted (λ r r', (getTime (created_at r) ≤ getTime (created_at r'))%Z) rows →
  ∃ forest,
    buildTree getTime rows = Some forest ∧
    Family (λ parent s, s = filter (λ r, parentKey rows r = parent) rows)
           None forest.
Proof.
  intros Hnd Hsorted.
  destruct (buildTree_heap getTime rows)
    as (h & forest & Hrun & Hread & Hlinked & Hev & Hset).
  exists forest. split; [done|].
  refine (readNodes_Family getTime (rowsOf (newMap rows).2) h _
            (byId_keyed rows) (proj1 Hlinked) _ _ Roots forest Hset Hread).
  intros a s _ Hids Hgood.
  set (l := filter (λ r, par (rowsOf (newMap rows).2) (id r) = parentOf a) rows).
  assert (Hl : Forall (λ r, rowsOf (newMap rows).2 !! id r = Some r) l)
    by (apply Forall_filter_good, rows_good, Hnd).
  assert (H0 : readArr (foldl link {| cells := (newMap rows).2; roots := [] |}
                          (newMap rows).1) a = id <$> l).
  { destruct (h0_linkedUpTo rows) as [_ ->]. rewrite order_ids by done.
    pose proof (filter_fmap_id
                  (λ k, par (rowsOf (newMap rows).2) k = parentOf a) rows) as E.
    simpl in E. by rewrite E. }
  destruct (Hev a) as [_ Hsame]. rewrite H0 in Hsame.
  rewrite Hsame in Hids
    by (apply time_Ascending; [done|by apply StronglySorted_filter]).
  rewrite (good_inj rows s l Hgood Hl Hids). unfold l.
  apply filter_ext_in. intros r Hr. unfold parentKey.
  by rewrite par_parentIn.
Qed.

Lemma buildTree_keeps_loaded_order_witness :
  ∃ forest,
    buildTree stamp [post; c1; c1'; c2; c3] = Some forest ∧
    Family (λ parent s,
              s = filter (λ r, parentKey [post; c1; c1'; c2; c3] r = parent)
                         [post; c1; c1'; c2; c3])
           None forest.
Proof.
  apply (buildTree_keeps_loaded_order stamp [post; c1; c1'; c2; c3]).
  - compute_done.
  - repeat first [apply SSorted_nil | apply SSorted_cons
                  | apply List.Forall_nil | apply List.Forall_cons];
      by vm_compute.
Defined.

(** ** Local deletion *)

(** The run of the pruning step. *)
Lemma prune_spec (prev : list Row) (target : string) :
  ∃ T : gset string,
    (∀ k, k ∈ T ↔ Descendant prev target k) ∧
    prune target prev =
    Some (if decide (target ∈ id <$> prev)
          then filter (λ r, id r ∉ T) prev else prev).
Proof.
  destruct (collect_from_target prev target) as (T & Hrun & HT).
  exists T. split; [done|]. unfold prune. rewrite Hrun. simpl.
  destruct (decide (target ∈ id <$> prev)) as [Hin|Hout].
  - by rewrite bool_decide_eq_true_2 by (by apply byId_has).
  - by rewrite bool_decide_eq_false_2 by (by rewrite byId_has).
Qed.

Lemma pruned_without_target (prev : list Row) (target : string) (T : gset string) :
  (∀ k, k ∈ T ↔ Descendant prev target k) →
  target ∉ id <$> (if decide (target ∈ id <$> prev)
                   then filter (λ r, id r ∉ T) prev else prev).
Proof.
  intros HT. case_decide; [|done].
  intros (r & -> & [Hr _]%list_elem_of_filter)%list_elem_of_fmap.
  apply Hr, HT. constructor.
Qed.

(** X17. The pruning step always returns. What it returns keeps the order of the
    collection and no longer holds the target; no record that stays loses
    its parent: a parent that was in the collection still is; and pruning
    the same target again changes nothing. *)
Theorem prune_leaves_no_orphans (prev : list Row) (target : string) :
  ∃ rows',
    prune target prev = Some rows' ∧
    rows' `sublist_of` prev ∧
    (target ∉ id <$> rows') ∧
    (∀ r p, r ∈ rows' → parentLink r = Some p → p ∈ id <$> prev →
            p ∈ id <$> rows') ∧
    prune target rows' = Some rows'.
Proof.
  destruct (prune_spec prev target) as (T & HT & Hrun).
  pose proof (pruned_without_target prev target T HT) as Hgone.
  eexists. split; [exact Hrun|]. split; [|split; [done|split]].
  - case_decide; [apply sublist_filter|done].
  - case_decide; [|done].
    intros r p [Hr Hprev]%list_elem_of_filter Hp (q & -> & Hq)%list_elem_of_fmap.
    apply list_elem_of_fmap. exists q. split; [done|].
    apply list_elem_of_filter. split; [|done].
    intros Hq'%HT. apply Hr, HT. by eapply desc_child.
  - destruct (prune_spec (if decide (target ∈ id <$> prev)
                          then filter (λ r, id r ∉ T) prev else prev) target)
      as (T' & _ & ->).
    by rewrite decide_False.
Qed.

(** X18. [deleteComment] removes records from the local collection only
    after the user was signed in, confirmed, and the remote delete
    succeeded. Up to the remote call it changes neither the collection, the
    draft nor the reply target, and it reaches the call exactly when a user
    is signed in and confirms. When the call returns, whatever happened to
    the component meanwhile, it leaves the draft alone and clears the busy
    marker; after a remote error the collection and the reply target are as
    they were at that moment and the error is shown; after a success the
    collection has lost records only, the target is gone from it, and the
    reply target is cleared exactly when it was the target at the time of
    the click. *)
Theorem deleteComment_removes_only_when_confirmed
    (signedIn confirmed : bool) (target : string) (st : State) :
  match deleteComment_start signedIn confirmed target st with
  | Returned st' =>
    (signedIn = false ∨ confirmed = false) ∧
    rows st' = rows st ∧ text st' = text st ∧
    replyTo st' = replyTo st ∧ busyId st' = busyId st
  | AwaitDelete st1 replyTo0 =>
    signedIn = true ∧ confirmed = true ∧ replyTo0 = replyTo st ∧
    rows st1 = rows st ∧ text st1 = text st ∧ replyTo st1 = replyTo st ∧
    busyId st1 = Some target ∧ error st1 = ""
  end ∧
  ∀ (remoteError replyTo0 : option string) (st2 : State),
    ∃ st',
      deleteComment_resume remoteError target replyTo0 st2 = Some st' ∧
      rows st' `sublist_of` rows st2 ∧
      text st' = text st2 ∧
      busyId st' = None ∧
      (rows st' ≠ rows st2 → remoteError = None ∧ target ∈ id <$> rows st2) ∧
      match remoteError with
      | Some msg =>
        error st' = msg ∧ rows st' = rows st2 ∧ replyTo st' = replyTo st2
      | None =>
        error st' = error st2 ∧ (target ∉ id <$> rows st') ∧
        replyTo st' = if decide (replyTo0 = Some target) then None else replyTo st2
      end.
Proof.
  split.
  - unfold deleteComment_start.
    destruct signedIn; simpl; [|by auto 10].
    destruct confirmed; simpl; by auto 10.
  - intros remoteError replyTo0 st2. unfold deleteComment_resume.
    destruct remoteError as [msg|]; simpl.
    { eexists. split; [done|]. simpl. split; [done|]. split; [done|].
      split; [done|]. split; [by intros []|]. done. }
    destruct (prune_spec (rows st2) target) as (T & HT & ->). simpl.
    pose proof (pruned_without_target (rows st2) target T HT) as Hgone.
    eexists. split; [done|].
    set (rows' := if decide (target ∈ id <$> rows st2)
                  then filter (λ r, id r ∉ T) (rows st2) else rows st2) in *.
    assert (Hsub : rows' `sublist_of` rows st2)
      by (unfold rows'; case_decide; [apply sublist_filter|done]).
    assert (Hchanged : rows' ≠ rows st2 → target ∈ id <$> rows st2)
      by (unfold rows'; intros Hne; case_decide; [done|by destruct Hne]).
    clearbody rows'.
    destruct (decide (replyTo0 = Some target)) as [Hreply|Hreply]; simpl.
    + split; [done|]. split; [done|]. split; [done|]. split; [auto|]. done.
    + split; [done|]. split; [done|]. split; [done|]. split; [auto|]. done.
Qed.

(** The reply target chosen while a delete is pending stays, also when it is
    the comment being deleted: B is deleted, and B is the reply target
    afterwards. *)
Example deleteComment_reply_chosen_meanwhile :
  let st := {| rows := thread; text := ""; replyTo := None;
               error := ""; busyId := None |} in
  deleteComment_start true true "B" st
    = AwaitDelete (setBusyId (Some "B") st) None ∧
  deleteComment_resume None "B" None (setReplyTo (Some "B") (setBusyId (Some "B") st))
    = Some {| rows := [comment "A" None; comment "C" (Some "A")]; text := "";
              replyTo := Some "B"; error := ""; busyId := None |}.
Proof. split; [reflexivity|by vm_compute]. Qed.

End CommentsMore.
